(** * Graceful-shutdown server (kata 03): worker pool, futures, connection
    pool, cache refresher and application life cycle.

  The Go code of package [gracefulshutdownserver] is embedded shallowly:
  - a [context.Context] is the state it can be observed in (live, or done
    with an error and a cause);
  - a call that may panic returns a [go] outcome;
  - goroutines are program counters that a scheduler advances one
    statement at a time; every [select] with several ready cases takes the
    scheduler's choice as an argument. *)

From Stdlib Require Import ZArith Lia.
From stdpp Require Import base option list strings.

Open Scope string_scope.
Open Scope list_scope.
Open Scope nat_scope.

(** ** Go values shared by all components *)

(** The zero value of a type ([var zero R]). *)
Class Zero (R : Type) := zero : R.

(** [type Data string] (controller.go). *)
Definition Data := string.
#[global] Instance Data_zero : Zero Data := "".

(** The error values this package creates or receives from [context]. *)
Inductive error : Type :=
| Canceled                      (* context.Canceled *)
| DeadlineExceeded              (* context.DeadlineExceeded *)
| ErrWorkerPoolShutdown         (* errors.New("worker pool is shutdown") *)
| ErrTaskQueueFull              (* errors.New("task queue is full") *)
| ErrAlreadyShutdown            (* errors.New("already shutdown") *)
| ErrTaskPanicked (r : string)  (* fmt.Errorf("task panicked: %v", r) *)
| ErrOther (msg : string).      (* any other error, e.g. from net.Dial *)

Definition Error (e : error) : string :=
match e with
| Canceled => "context canceled"
| DeadlineExceeded => "context deadline exceeded"
| ErrWorkerPoolShutdown => "worker pool is shutdown"
| ErrTaskQueueFull => "task queue is full"
| ErrAlreadyShutdown => "already shutdown"
| ErrTaskPanicked r => String.append "task panicked: " r
| ErrOther msg => msg
end.

(** Outcome of a Go call: it returns, or it panics with a (non-nil) value. *)
Inductive go (A : Type) : Type :=
| Ret (a : A)
| Panic (v : string).
Arguments Ret {A} a.
Arguments Panic {A} v.

Definition go_bind {A B} (m : go A) (k : A -> go B) : go B :=
match m with
| Ret a => k a
| Panic v => Panic v
end.

(** [defer func() { if r := recover(); r != nil { handler(r) } }()] around a
  body with unnamed results: a returning body keeps its results and the
  handler is skipped; a panicking body is stopped by [recover], the handler
  runs on the state, and the function returns the zero results. *)
Definition defer_recover {S A} (zero_results : A) (handler : string -> S -> S)
  (body : go A) (s : S) : go (A * S) :=
match body with
| Ret a => Ret (a, s)
| Panic v => Ret (zero_results, handler v s)
end.

(** ** context.Context with cancel cause *)

Section Context_.
Context {R : Type}.

(** What [context.Cause] can hold: a [*futureResult[R]] (the only cause
    this package passes to a cancel function that [errors.As] matches in
    [Future.Get]), or any other error. *)
Inductive cause : Type :=
| futureResult (result : R) (err : option error)
| causeErr (e : error).

(** A context is live ([None]) or done with [Err()] and [Cause()]. *)
Definition ctx : Type := option (error * cause).

Definition Background : ctx := None.
Definition Err (c : ctx) : option error := fst <$> c.
Definition Cause (c : ctx) : option cause := snd <$> c.

(** [context.WithCancelCause(parent)]: the child starts in the parent's
    state (a done parent cancels the child at once, with its own error and
    cause). *)
Definition WithCancelCause (parent : ctx) : ctx := parent.

(** The [CancelCauseFunc] of a child: the first cancellation sets
    [Err() = Canceled] and the cause; later calls do nothing. *)
Definition cancel (cs : cause) (c : ctx) : ctx :=
  match c with
  | None => Some (Canceled, cs)
  | Some _ => c
  end.

(** Cancellation of the parent reaching a child: a live child takes the
    parent's error and cause, a done child is left alone. *)
Definition parentDone (e : error) (cs : cause) (c : ctx) : ctx :=
  match c with
  | None => Some (e, cs)
  | Some _ => c
  end.
End Context_.
Arguments cause R : clear implicits.
Arguments ctx R : clear implicits.

(** ** Future (workerpool.go) *)

Section Future_.
Context {R : Type} `{!Zero R}.

(** [type Task[R any] func(ctx context.Context) (R, error)]; the task sees
    the future's context and returns or panics. *)
Definition Task : Type := ctx R -> go (R * option error).

(** [type Future[R any] struct { ctx; task; callback }].  The callback is
    the closure over the context's cancel function built by [NewFuture]; it
    is the function [callback] below. *)
Record Future : Type := mkFuture { f_ctx : ctx R; f_task : Task }.

Definition NewFuture (c : ctx R) (task : Task) : Future :=
  {| f_ctx := WithCancelCause c; f_task := task |}.

(** [f.callback(result, err)]: [cancel(&futureResult[R]{result, err})]. *)
Definition callback (result : R) (err : option error) (f : Future) : Future :=
  {| f_ctx := cancel (futureResult result err) (f_ctx f); f_task := f_task f |}.

Definition IsDone (f : Future) : bool := bool_decide (is_Some (Err (f_ctx f))).

(** [invoke]: the task runs under a deferred [recover]. *)
Definition invoke (f : Future) : go ((R * option error) * Future) :=
  defer_recover (zero, None)
    (fun r => callback zero (Some (ErrTaskPanicked r)))
    (f_task f (f_ctx f)) f.

Definition Run (f : Future) : go Future :=
  if IsDone f then Ret f
  else go_bind (invoke f) (fun '((result, err), f') => Ret (callback result err f')).

(** [Get]: [None] while [<-f.Done()] blocks; otherwise the pair carried by
    the cause, or the zero value with the cause as the error. *)
Definition Get (f : Future) : option (R * option error) :=
  match Cause (f_ctx f) with
  | None => None
  | Some (futureResult result err) => Some (result, err)
  | Some (causeErr e) => Some (zero, Some e)
  end.

Definition Cancel (f : Future) : Future := callback zero (Some Canceled) f.

(** The pair stored in the future: the cause of its context. *)
Definition stored (f : Future) : option (cause R) := Cause (f_ctx f).

(** Everything that can happen to a future: the two calls of its API, and
    the cancellation of the context it was derived from. *)
Inductive call : Type := CallRun | CallCancel.
Inductive event : Type :=
| Call (c : call)
| ParentDone (e : error) (cs : cause R).

Definition do_call (c : call) (f : Future) : go Future :=
  match c with
  | CallRun => Run f
  | CallCancel => Ret (Cancel f)
  end.

Definition do_event (ev : event) (f : Future) : go Future :=
  match ev with
  | Call c => do_call c f
  | ParentDone e cs =>
      Ret {| f_ctx := parentDone e cs (f_ctx f); f_task := f_task f |}
  end.

Fixpoint do_events (evs : list event) (f : Future) : go Future :=
  match evs with
  | [] => Ret f
  | ev :: evs' => go_bind (do_event ev f) (do_events evs')
  end.
End Future_.
Arguments Task R : clear implicits.
Arguments Future R : clear implicits.
Arguments event R : clear implicits.


(** ** WorkerPool (workerpool.go) *)

(** Go's [int] on a 64-bit target: arithmetic wraps around. *)
Definition wrap_int (z : Z) : Z := ((z + 2 ^ 63) mod 2 ^ 64 - 2 ^ 63)%Z.

Section WorkerPool_.
Context {R : Type} `{!Zero R}.

(** [type workerPool[R any] struct].  [taskQueue] holds the queued
    [*Future[R]] as addresses into the heap of the system below, oldest
    first; [wp_cap] is the capacity the channel was made with. *)
Record workerPool : Type := mkWorkerPool {
  wp_ctx : ctx R;
  wp_size : Z;
  wp_cap : Z;
  taskQueue : list nat
}.

(** Where a worker goroutine stands in [worker()]. *)
Inductive wpc : Type :=
| WCheck     (* top of the loop: [if wp.IsShutdown()] *)
| WSelect    (* at the [select] *)
| WExited.   (* returned *)

(** The pool with the futures it shares with its callers and its worker
    goroutines; [crashed] records a panic that escaped a goroutine. *)
Record system : Type := mkSystem {
  pool : workerPool;
  heap : list (Future R);
  workers : list wpc;
  crashed : option string
}.

Definition IsShutdown (wp : workerPool) : bool :=
  bool_decide (is_Some (Err (wp_ctx wp))).

(** [NewWorkerPool]: [make] panics on a negative capacity; every
    [go wp.worker()] adds a goroutine at the top of its loop. *)
Definition NewWorkerPool (c : ctx R) (size : Z) : go system :=
  let size := if (size <=? 0)%Z then 1%Z else size in
  let cap := wrap_int (size * 2) in
  if (cap <? 0)%Z then Panic "makechan: size out of range"
  else Ret {| pool := {| wp_ctx := WithCancelCause c; wp_size := size;
                         wp_cap := cap; taskQueue := [] |};
              heap := [];
              workers := replicate (Z.to_nat size) WCheck;
              crashed := None |}.

(** Allocation of a future: its address is the next free index. *)
Definition alloc (f : Future R) (s : system) : nat * system :=
  (length (heap s),
   {| pool := pool s; heap := heap s ++ [f]; workers := workers s;
      crashed := crashed s |}).

Definition enqueue (p : nat) (s : system) : system :=
  {| pool := {| wp_ctx := wp_ctx (pool s); wp_size := wp_size (pool s);
                wp_cap := wp_cap (pool s);
                taskQueue := taskQueue (pool s) ++ [p] |};
     heap := heap s; workers := workers s; crashed := crashed s |}.

(** [Submit]: the send of the [select] proceeds when the buffer has room,
    otherwise the [default] case runs.  The returned address is the
    [*Future[R]] handed to the caller. *)
Definition Submit (c : ctx R) (task : Task R) (s : system) : nat * system :=
  if IsShutdown (pool s) then
    alloc (NewFuture c (fun _ => Ret (zero, Some ErrWorkerPoolShutdown))) s
  else
    let '(future, s1) := alloc (NewFuture c task) s in
    if (Z.of_nat (length (taskQueue (pool s1))) <? wp_cap (pool s1))%Z then
      (future, enqueue future s1)
    else
      alloc (NewFuture c (fun _ => Ret (zero, Some ErrTaskQueueFull))) s1.

(** [wp.cancel(ErrWorkerPoolShutdown)] of [Shutdown], which runs it only
    when the pool is not shut down yet and then waits for the workers. *)
Definition Shutdown_pool (s : system) : system :=
  if IsShutdown (pool s) then s
  else
    {| pool := {| wp_ctx := cancel (causeErr ErrWorkerPoolShutdown) (wp_ctx (pool s));
                  wp_size := wp_size (pool s); wp_cap := wp_cap (pool s);
                  taskQueue := taskQueue (pool s) |};
       heap := heap s; workers := workers s; crashed := crashed s |}.

Definition set_worker (i : nat) (pc : wpc) (s : system) : system :=
  {| pool := pool s; heap := heap s; workers := <[i := pc]> (workers s);
     crashed := crashed s |}.

(** The receive case of the worker's [select]: the oldest future leaves
    the queue and [future.Run()] runs on the shared object. *)
Definition take_and_run (i : nat) (p : nat) (rest : list nat) (s : system) : system :=
  let pool' := {| wp_ctx := wp_ctx (pool s); wp_size := wp_size (pool s);
                  wp_cap := wp_cap (pool s); taskQueue := rest |} in
  match heap s !! p with
  | None => s
  | Some f =>
      match Run f with
      | Ret f' =>
          {| pool := pool'; heap := <[p := f']> (heap s);
             workers := <[i := WCheck]> (workers s); crashed := crashed s |}
      | Panic v =>
          {| pool := pool'; heap := heap s;
             workers := <[i := WExited]> (workers s); crashed := Some v |}
      end
  end.

(** One statement of worker [i].  [prefer_task] is the scheduler's pick
    when both cases of the [select] are ready.  [None]: the worker cannot
    move (it has returned, or it blocks in the [select]). *)
Definition worker_step (prefer_task : bool) (i : nat) (s : system) : option system :=
  match workers s !! i with
  | Some WCheck =>
      if IsShutdown (pool s) then Some (set_worker i WExited s)
      else Some (set_worker i WSelect s)
  | Some WSelect =>
      match taskQueue (pool s), IsShutdown (pool s) with
      | p :: rest, true =>
          if prefer_task then Some (take_and_run i p rest s)
          else Some (set_worker i WExited s)
      | p :: rest, false => Some (take_and_run i p rest s)
      | [], true => Some (set_worker i WExited s)
      | [], false => None
      end
  | _ => None
  end.

(** What the scheduler and the callers can do to a running pool. *)
Inductive wp_action : Type :=
| WSubmit (c : ctx R) (task : Task R)
| WShutdown
| WWorker (prefer_task : bool) (i : nat).

Definition wp_step (a : wp_action) (s : system) : option system :=
  match a with
  | WSubmit c task => Some (snd (Submit c task s))
  | WShutdown => Some (Shutdown_pool s)
  | WWorker b i => worker_step b i s
  end.

Fixpoint wp_run (acts : list wp_action) (s : system) : option system :=
  match acts with
  | [] => Some s
  | a :: acts' => s' ← wp_step a s; wp_run acts' s'
  end.

Definition worker_exited (i : nat) (s : system) : bool :=
  match workers s !! i with
  | Some WExited => true
  | _ => false
  end.

Definition all_exited (s : system) : bool :=
  forallb (fun pc => match pc with WExited => true | _ => false end) (workers s).

(** The future at address [p] is still waiting in the queue. *)
Definition queued (p : nat) (s : system) : bool :=
  bool_decide (p ∈ taskQueue (pool s)).
End WorkerPool_.
Arguments workerPool R : clear implicits.
Arguments system R : clear implicits.
Arguments wp_action R : clear implicits.


(** ** ConnPool (database.go) *)

(** A [net.Conn]: nil, or the n-th connection the factory produced. *)
Inductive Conn : Type :=
| nilConn
| conn (id : nat).

(** [type ConnPool struct]: [cp_done] is [cp.ctx.Err() != nil]; [sema] is
    the number of tokens in the semaphore channel and [wg] the counter of
    the wait group; [idleCons] is the buffer of the idle channel, oldest
    first, and [idle_closed] whether [close(cp.idleCons)] has run.  Both
    channels were made with capacity [cp_cap]. *)
Record ConnPool : Type := mkConnPool {
  cp_done : bool;
  cp_cap : nat;
  sema : nat;
  wg : nat;
  idleCons : list Conn;
  idle_closed : bool
}.

(** [NewPool(ctx, cap, factory)], for a capacity that [make] accepts;
    [parent_done] tells whether [ctx] is already done. *)
Definition NewPool (parent_done : bool) (cap : nat) : ConnPool :=
  {| cp_done := parent_done; cp_cap := cap; sema := 0; wg := 0;
     idleCons := []; idle_closed := false |}.

Definition set_done (p : ConnPool) : ConnPool :=
  {| cp_done := true; cp_cap := cp_cap p; sema := sema p; wg := wg p;
     idleCons := idleCons p; idle_closed := idle_closed p |}.

Definition set_sema (n : nat) (p : ConnPool) : ConnPool :=
  {| cp_done := cp_done p; cp_cap := cp_cap p; sema := n; wg := wg p;
     idleCons := idleCons p; idle_closed := idle_closed p |}.

Definition set_wg (n : nat) (p : ConnPool) : ConnPool :=
  {| cp_done := cp_done p; cp_cap := cp_cap p; sema := sema p; wg := n;
     idleCons := idleCons p; idle_closed := idle_closed p |}.

Definition set_idle (l : list Conn) (p : ConnPool) : ConnPool :=
  {| cp_done := cp_done p; cp_cap := cp_cap p; sema := sema p; wg := wg p;
     idleCons := l; idle_closed := idle_closed p |}.

Definition set_closed (p : ConnPool) : ConnPool :=
  {| cp_done := cp_done p; cp_cap := cp_cap p; sema := sema p; wg := wg p;
     idleCons := idleCons p; idle_closed := true |}.

Definition cp_IsShutdown (p : ConnPool) : bool := cp_done p.

(** The case the [select] of [Get] takes.  A receive from the idle channel
    is ready when its buffer is non-empty or the channel is closed;
    [default] runs only when nothing is ready; [prefer_done] is the
    scheduler's pick when [ctx.Done()] and the receive are both ready. *)
Inductive get_branch : Type :=
| GetErr (e : error)
| GetRecv
| GetDefault.

Definition recv_ready (p : ConnPool) : bool :=
  match idleCons p with
  | [] => idle_closed p
  | _ :: _ => true
  end.

Definition Get_select (caller : option error) (prefer_done : bool) (p : ConnPool)
    : get_branch :=
  match caller with
  | Some e => if recv_ready p && negb prefer_done then GetRecv else GetErr e
  | None => if recv_ready p then GetRecv else GetDefault
  end.

(** [conn := <-cp.idleCons]: the oldest idle connection, or nil from a
    closed and drained channel. *)
Definition recv_idle (p : ConnPool) : Conn * ConnPool :=
  match idleCons p with
  | c :: rest => (c, set_idle rest p)
  | [] => (nilConn, p)
  end.

(** The [select] of [Put]: a send on a closed channel panics; otherwise the
    connection joins the idle buffer if there is room ([None]), or the
    [default] case closes it ([Some c]). *)
Definition Put_select (c : Conn) (p : ConnPool) : go (ConnPool * option Conn) :=
  if idle_closed p then Panic "send on closed channel"
  else if (length (idleCons p) <? cp_cap p)%nat
       then Ret (set_idle (idleCons p ++ [c]) p, None)
       else Ret (p, Some c).

(** Where a goroutine stands in [Execute]; the deferred calls run in the
    order [Put], [wg.Done], [<-cp.sema], carrying the result or panic of the
    call with them. *)
Inductive epc : Type :=
| EStart                                   (* [if cp.IsShutdown()] *)
| ESema                                    (* the [select] on the semaphore *)
| EAdd                                     (* [cp.wg.Add(1)] *)
| EGetCheck                                (* Get: [if cp.IsShutdown()] *)
| EGetSelect                               (* Get: the [select] *)
| EFactory                                 (* Get: [cp.factory()] running *)
| EFn (c : Conn)                           (* [fn(conn)] running *)
| EPutCheck (c : Conn) (r : go (option error))   (* Put: [if cp.IsShutdown()] *)
| EPutSelect (c : Conn) (r : go (option error))  (* Put: the [select] *)
| EWgDone (r : go (option error))          (* deferred [cp.wg.Done()] *)
| ERelease (r : go (option error))         (* deferred [<-cp.sema] *)
| EReturned (r : go (option error)).       (* Execute is over *)

(** A call of [Execute]: its program counter, [ctx.Err()] of the caller's
    context, and how many connections its factory calls produced and how
    often it invoked [fn]. *)
Record exec_call : Type := mkCall {
  pc : epc;
  caller : option error;
  created : nat;
  invoked : nat
}.

(** What the environment decides for one statement: the pick of a [select]
    with two ready cases, the result of the factory, the outcome of [fn]. *)
Record oracle : Type := mkOracle {
  prefer_done : bool;
  factory_result : option error;
  fn_result : go (option error)
}.

(** Where the caller of [Shutdown] stands (one caller at a time). *)
Inductive spc : Type :=
| SIdle      (* not in Shutdown; the next step enters it *)
| SCancel    (* passed [if cp.IsShutdown()], about to [cp.cancel()] *)
| SWait      (* [cp.wg.Wait()] *)
| SClose     (* [close(cp.idleCons)] *)
| SDrain.    (* [for conn := range cp.idleCons] *)

Record cp_state : Type := mkCpState {
  cp : ConnPool;
  calls : list exec_call;      (* the calls of Execute made so far *)
  sd : spc;
  next_conn : nat;             (* connections the factory has produced *)
  closedConns : list Conn;     (* connections closed with [conn.Close()] *)
  getters : nat;               (* direct calls of Get at their [select] *)
  putters : list Conn          (* direct calls of Put at their [select] *)
}.

Definition cp_init (parent_done : bool) (cap : nat) : cp_state :=
  {| cp := NewPool parent_done cap; calls := []; sd := SIdle;
     next_conn := 0; closedConns := []; getters := 0; putters := [] |}.

Definition with_cp (p : ConnPool) (s : cp_state) : cp_state :=
  {| cp := p; calls := calls s; sd := sd s; next_conn := next_conn s;
     closedConns := closedConns s; getters := getters s; putters := putters s |}.

Definition with_calls (l : list exec_call) (s : cp_state) : cp_state :=
  {| cp := cp s; calls := l; sd := sd s; next_conn := next_conn s;
     closedConns := closedConns s; getters := getters s; putters := putters s |}.

Definition with_sd (pc' : spc) (s : cp_state) : cp_state :=
  {| cp := cp s; calls := calls s; sd := pc'; next_conn := next_conn s;
     closedConns := closedConns s; getters := getters s; putters := putters s |}.

Definition with_next (n : nat) (s : cp_state) : cp_state :=
  {| cp := cp s; calls := calls s; sd := sd s; next_conn := n;
     closedConns := closedConns s; getters := getters s; putters := putters s |}.

Definition with_getters (n : nat) (s : cp_state) : cp_state :=
  {| cp := cp s; calls := calls s; sd := sd s; next_conn := next_conn s;
     closedConns := closedConns s; getters := n; putters := putters s |}.

Definition with_putters (l : list Conn) (s : cp_state) : cp_state :=
  {| cp := cp s; calls := calls s; sd := sd s; next_conn := next_conn s;
     closedConns := closedConns s; getters := getters s; putters := l |}.

(** [conn.Close()] on the connection, if there is one to close. *)
Definition close_conn (k : option Conn) (s : cp_state) : cp_state :=
  match k with
  | Some c =>
      {| cp := cp s; calls := calls s; sd := sd s; next_conn := next_conn s;
         closedConns := closedConns s ++ [c]; getters := getters s;
         putters := putters s |}
  | None => s
  end.

Definition goto (pc' : epc) (c : exec_call) : exec_call :=
  {| pc := pc'; caller := caller c; created := created c; invoked := invoked c |}.

Definition enter_fn (k : Conn) (c : exec_call) : exec_call :=
  {| pc := EFn k; caller := caller c; created := created c;
     invoked := S (invoked c) |}.

(** One statement of a call of [Execute] on the pool: the new call, pool,
    factory counter and the connection it closed, if any.  [None]: the call
    cannot move (it is over, or it blocks on the semaphore). *)
Definition Execute_stmt (o : oracle) (c : exec_call) (p : ConnPool) (next : nat)
    : option (exec_call * ConnPool * nat * option Conn) :=
  match pc c with
  | EStart =>
      if cp_IsShutdown p
      then Some (goto (EReturned (Ret (Some ErrAlreadyShutdown))) c, p, next, None)
      else Some (goto ESema c, p, next, None)
  | ESema =>
      let acquire := Some (goto EAdd c, set_sema (S (sema p)) p, next, None) in
      match caller c, (sema p <? cp_cap p)%nat with
      | Some e, true =>
          if prefer_done o then Some (goto (EReturned (Ret (Some e))) c, p, next, None)
          else acquire
      | Some e, false => Some (goto (EReturned (Ret (Some e))) c, p, next, None)
      | None, true => acquire
      | None, false => None
      end
  | EAdd => Some (goto EGetCheck c, set_wg (S (wg p)) p, next, None)
  | EGetCheck =>
      if cp_IsShutdown p
      then Some (goto (EWgDone (Ret (Some ErrAlreadyShutdown))) c, p, next, None)
      else Some (goto EGetSelect c, p, next, None)
  | EGetSelect =>
      match Get_select (caller c) (prefer_done o) p with
      | GetErr e => Some (goto (EWgDone (Ret (Some e))) c, p, next, None)
      | GetRecv => let '(k, p') := recv_idle p in Some (enter_fn k c, p', next, None)
      | GetDefault => Some (goto EFactory c, p, next, None)
      end
  | EFactory =>
      match factory_result o with
      | Some e => Some (goto (EWgDone (Ret (Some e))) c, p, next, None)
      | None =>
          Some ({| pc := EFn (conn next); caller := caller c;
                   created := S (created c); invoked := S (invoked c) |},
                p, S next, None)
      end
  | EFn k => Some (goto (EPutCheck k (fn_result o)) c, p, next, None)
  | EPutCheck k r =>
      if cp_IsShutdown p then Some (goto (EWgDone r) c, p, next, Some k)
      else Some (goto (EPutSelect k r) c, p, next, None)
  | EPutSelect k r =>
      match Put_select k p with
      | Ret (p', closed) => Some (goto (EWgDone r) c, p', next, closed)
      | Panic v => Some (goto (EWgDone (Panic v)) c, p, next, None)
      end
  | EWgDone r => Some (goto (ERelease r) c, set_wg (pred (wg p)) p, next, None)
  | ERelease r => Some (goto (EReturned r) c, set_sema (pred (sema p)) p, next, None)
  | EReturned _ => None
  end.

Definition Execute_step (o : oracle) (i : nat) (s : cp_state) : option cp_state :=
  c ← calls s !! i;
  '(c', p', next', closed) ← Execute_stmt o c (cp s) (next_conn s);
  Some (close_conn closed
          (with_next next' (with_calls (<[i := c']> (calls s)) (with_cp p' s)))).

(** One statement of the caller of [Shutdown]; [None] while [wg.Wait()]
    blocks. *)
Definition Shutdown_step (s : cp_state) : option cp_state :=
  match sd s with
  | SIdle => if cp_IsShutdown (cp s) then Some s else Some (with_sd SCancel s)
  | SCancel => Some (with_sd SWait (with_cp (set_done (cp s)) s))
  | SWait => if (wg (cp s) =? 0)%nat then Some (with_sd SClose s) else None
  | SClose => Some (with_sd SDrain (with_cp (set_closed (cp s)) s))
  | SDrain =>
      match idleCons (cp s) with
      | k :: rest => Some (close_conn (Some k) (with_cp (set_idle rest (cp s)) s))
      | [] => Some (with_sd SIdle s)
      end
  end.

(** [Get] called directly, outside [Execute]: the shutdown test, then the
    [select].  The connection it obtains stays with its caller. *)
Definition direct_Get_check (s : cp_state) : cp_state :=
  if cp_IsShutdown (cp s) then s else with_getters (S (getters s)) s.

Definition direct_Get_select (caller : option error) (o : oracle) (s : cp_state)
    : option cp_state :=
  match getters s with
  | 0 => None
  | S n =>
      let s := with_getters n s in
      match Get_select caller (prefer_done o) (cp s) with
      | GetErr _ => Some s
      | GetRecv => Some (with_cp (snd (recv_idle (cp s))) s)
      | GetDefault =>
          match factory_result o with
          | Some _ => Some s
          | None => Some (with_next (S (next_conn s)) s)
          end
      end
  end.

(** [Put] called directly, outside [Execute]: the shutdown test, then the
    [select]. *)
Definition direct_Put_check (k : Conn) (s : cp_state) : cp_state :=
  if cp_IsShutdown (cp s) then close_conn (Some k) s
  else with_putters (putters s ++ [k]) s.

Definition direct_Put_select (s : cp_state) : option cp_state :=
  match putters s with
  | [] => None
  | k :: rest =>
      let s := with_putters rest s in
      match Put_select k (cp s) with
      | Ret (p', closed) => Some (close_conn closed (with_cp p' s))
      | Panic _ => Some s
      end
  end.

(** Everything that can happen to a pool. *)
Inductive cp_action : Type :=
| CSpawn (caller : option error)         (* a goroutine calls Execute *)
| CCallerCancel (i : nat) (e : error)    (* the context of call [i] is done *)
| CParentCancel                          (* the parent of [cp.ctx] is done *)
| CExec (o : oracle) (i : nat)           (* call [i] runs a statement *)
| CShutdown                              (* the Shutdown caller runs one *)
| CGetCheck                              (* a goroutine calls Get *)
| CGetSelect (caller : option error) (o : oracle)
| CPutCheck (k : Conn)                   (* a goroutine calls Put *)
| CPutSelect.

Definition caller_cancel (e : error) (c : exec_call) : exec_call :=
  {| pc := pc c;
     caller := match caller c with None => Some e | Some e' => Some e' end;
     created := created c; invoked := invoked c |}.

Definition cp_step (a : cp_action) (s : cp_state) : option cp_state :=
  match a with
  | CSpawn e =>
      Some (with_calls (calls s ++ [{| pc := EStart; caller := e; created := 0;
                                       invoked := 0 |}]) s)
  | CCallerCancel i e =>
      c ← calls s !! i;
      Some (with_calls (<[i := caller_cancel e c]> (calls s)) s)
  | CParentCancel => Some (with_cp (set_done (cp s)) s)
  | CExec o i => Execute_step o i s
  | CShutdown => Shutdown_step s
  | CGetCheck => Some (direct_Get_check s)
  | CGetSelect e o => direct_Get_select e o s
  | CPutCheck k => Some (direct_Put_check k s)
  | CPutSelect => direct_Put_select s
  end.

Fixpoint cp_run (acts : list cp_action) (s : cp_state) : option cp_state :=
  match acts with
  | [] => Some s
  | a :: acts' => s' ← cp_step a s; cp_run acts' s'
  end.

(** Actions in which [Put] is reached only through [Execute]. *)
Definition gated (a : cp_action) : bool :=
  match a with
  | CPutCheck _ | CPutSelect => false
  | _ => true
  end.

(** Connections in the hands of [Execute] callers. *)
Definition holds_conn (c : exec_call) : nat :=
  match pc c with
  | EFn _ | EPutCheck _ _ | EPutSelect _ _ => 1
  | _ => 0
  end.

Definition in_use (s : cp_state) : nat := sum_list_with holds_conn (calls s).

Definition idle_count (s : cp_state) : nat := length (idleCons (cp s)).

(** Bookkeeping of the other resources a call holds: a semaphore slot, a
    unit of the wait group, a connection or a factory call under way, and
    whether it stands between the shutdown test of [Get] and the end of
    [Put]. *)
Definition holds_slot (c : exec_call) : nat :=
  match pc c with
  | EStart | ESema | EReturned _ => 0
  | _ => 1
  end.

Definition in_wg (c : exec_call) : nat :=
  match pc c with
  | EStart | ESema | EAdd | ERelease _ | EReturned _ => 0
  | _ => 1
  end.

Definition has_conn (c : exec_call) : nat :=
  match pc c with
  | EFactory | EFn _ | EPutCheck _ _ | EPutSelect _ _ => 1
  | _ => 0
  end.

Definition past_check (c : exec_call) : nat :=
  match pc c with
  | EGetSelect | EFactory | EFn _ | EPutCheck _ _ | EPutSelect _ _ => 1
  | _ => 0
  end.

Arguments holds_slot !c /.
Arguments in_wg !c /.
Arguments has_conn !c /.
Arguments past_check !c /.
Arguments holds_conn !c /.

Definition a_call_returned (i : nat) (s : cp_state) : option (go (option error)) :=
  match calls s !! i with
  | Some c => match pc c with EReturned r => Some r | _ => None end
  | None => None
  end.


(** ** cache (cache.go) *)

(** What the [select] of [pooling] finds each time the goroutine is woken:
    whether [ticker.C] holds a tick, whether [c.ctx] is done, and the
    scheduler's pick when both cases are ready. *)
Record wake : Type := mkWake {
  tick_ready : bool;
  ctx_done : bool;
  prefer_tick : bool
}.

Inductive select_case : Type := TickCase | DoneCase.

Definition pooling_select (w : wake) : option select_case :=
  match tick_ready w, ctx_done w with
  | true, true => Some (if prefer_tick w then TickCase else DoneCase)
  | true, false => Some TickCase
  | false, true => Some DoneCase
  | false, false => None
  end.

(** What [pooling] does, in order: a call of [c.refresh()], or the return
    of the goroutine. *)
Inductive cache_event : Type := Refreshed | Stopped.

(** The [for { select { ... } }] of [pooling] over the wake-ups it gets. *)
Fixpoint pooling_loop (ws : list wake) : list cache_event :=
  match ws with
  | [] => []
  | w :: ws' =>
      match pooling_select w with
      | Some TickCase => Refreshed :: pooling_loop ws'
      | Some DoneCase => [Stopped]
      | None => pooling_loop ws'
      end
  end.

Definition pooling (ws : list wake) : list cache_event :=
  Refreshed :: pooling_loop ws.

Definition is_refresh (ev : cache_event) : bool :=
  match ev with Refreshed => true | Stopped => false end.

Definition refresh_count (evs : list cache_event) : nat :=
  length (filter (fun ev => is_refresh ev = true) evs).

(** Wake-ups that received a tick while the context was live. *)
Definition live_ticks (ws : list wake) : nat :=
  length (filter (fun w => tick_ready w = true) ws).

(** ** Application (application.go) *)

Inductive component : Type :=
| DatabaseC | CacheC | WorkerPoolC | ControllerC | HttpServerC.

(** The fields of [Application] that [Shutdown] reads; [true] is a non-nil
    value. *)
Record Application : Type := mkApplication {
  httpServer : bool;
  app_pool : bool;
  app_cache : bool;
  app_db : bool
}.

(** [InitApplication]: the constructors in the order they are called, and
    the application they build. *)
Definition InitApplication : list component * Application :=
  let log := [] in
  let log := log ++ [DatabaseC] in      (* db := NewDatabase(ctx, dbAddr, 10) *)
  let log := log ++ [CacheC] in         (* cache := NewCache(ctx, 30*time.Second) *)
  let log := log ++ [WorkerPoolC] in    (* pool := NewWorkerPool[Data](ctx, 10) *)
  let log := log ++ [ControllerC] in    (* controller := NewController(pool, cache, db) *)
  let log := log ++ [HttpServerC] in    (* httpServer := NewHttpServer(srvAddr, controller) *)
  (log, {| httpServer := true; app_pool := true; app_cache := true; app_db := true |}).

(** [Application.Shutdown]: the [Shutdown] methods in the order they are
    called.  A nil [httpServer] is dereferenced by its method. *)
Definition App_Shutdown (app : Application) : go (list component) :=
  if httpServer app then
    let log := [HttpServerC] in
    let log := if app_pool app then log ++ [WorkerPoolC] else log in
    let log := if app_cache app then log ++ [CacheC] else log in
    let log := if app_db app then log ++ [DatabaseC] else log in
    Ret log
  else Panic "invalid memory address or nil pointer dereference".

(** The components with a [Shutdown] method. *)
Definition has_Shutdown (c : component) : bool :=
  match c with
  | ControllerC => false
  | _ => true
  end.

(** The components whose [Shutdown] an application can call: those with
    the method whose field is not nil. *)
Definition present (app : Application) (c : component) : bool :=
  match c with
  | HttpServerC => httpServer app
  | WorkerPoolC => app_pool app
  | CacheC => app_cache app
  | DatabaseC => app_db app
  | ControllerC => false
  end.

(** ** Inputs of the examples *)

(** The task of [handlerRequest] when the query succeeds. *)
Definition task_pong : Task Data := fun _ => Ret ("pong", None).

Definition task_panic : Task Data := fun _ => Panic "boom".

(** [NewWorkerPool[Data](context.Background(), 1)] as [NewWorkerPool]
    returns it. *)
Definition pool1 : system Data :=
  {| pool := {| wp_ctx := Background; wp_size := 1; wp_cap := 2; taskQueue := [] |};
     heap := []; workers := [WCheck]; crashed := None |}.

(** [pool1] after a Submit of the panicking task, with its worker at the
    [select]. *)
Definition panic_queued : system Data :=
  set_worker 0 WSelect (snd (Submit Background task_panic pool1)).

(** [NewWorkerPool[Data](ctx, 10)] of [InitApplication]. *)
Definition pool10 : system Data :=
  Eval vm_compute in
    match NewWorkerPool Background 10 with
    | Ret s => s
    | Panic _ => pool1
    end.

(** An environment that lets the factory succeed and [fn] return nil; the
    second one makes every [select] prefer the Done case. *)
Definition quiet : oracle :=
  {| prefer_done := false; factory_result := None; fn_result := Ret None |}.

Definition hasty : oracle :=
  {| prefer_done := true; factory_result := None; fn_result := Ret None |}.

(** Pool of capacity 1: call 0 is admitted and runs [fn] on a fresh
    connection; call 1 reaches the semaphore; then the pool is shut down. *)
Definition held_then_shutdown : list cp_action :=
  [CSpawn None; CExec quiet 0; CExec quiet 0; CExec quiet 0; CExec quiet 0;
   CExec quiet 0; CExec quiet 0;
   CSpawn None; CExec quiet 1;
   CShutdown; CShutdown].

(** Pool of capacity 1: call 0 runs [fn] on a fresh connection while
    another goroutine gets a connection with [Get] and hands it to [Put]. *)
Definition direct_get_put : list cp_action :=
  [CSpawn None; CExec quiet 0; CExec quiet 0; CExec quiet 0; CExec quiet 0;
   CExec quiet 0; CExec quiet 0;
   CGetCheck; CGetSelect None quiet; CPutCheck (conn 1); CPutSelect].

(** Pool of capacity 2: a call of [Execute] runs to the end and leaves its
    connection idle; a second call is admitted, and a goroutine calling [Get]
    directly takes the idle connection before the second call looks for
    one. *)
Definition execute_and_get : list cp_action :=
  [CSpawn None; CExec quiet 0; CExec quiet 0; CExec quiet 0; CExec quiet 0;
   CExec quiet 0; CExec quiet 0; CExec quiet 0; CExec quiet 0; CExec quiet 0;
   CExec quiet 0; CExec quiet 0;
   CSpawn None; CExec quiet 1; CExec quiet 1; CExec quiet 1; CExec quiet 1;
   CGetCheck; CGetSelect None quiet;
   CExec quiet 1; CExec quiet 1].

(** Pool of capacity 2: two calls of [Execute] run to the end. *)
Definition two_calls : list cp_action :=
  [CSpawn None; CSpawn None;
   CExec quiet 0; CExec quiet 1; CExec quiet 0; CExec quiet 1;
   CExec quiet 0; CExec quiet 1; CExec quiet 0; CExec quiet 1;
   CExec quiet 0; CExec quiet 1; CExec quiet 0; CExec quiet 1;
   CExec quiet 0; CExec quiet 0; CExec quiet 0; CExec quiet 0; CExec quiet 0;
   CExec quiet 1; CExec quiet 1; CExec quiet 1; CExec quiet 1].


(** The states these runs end in. *)
Definition run_from (acts : list cp_action) (s0 : cp_state) : cp_state :=
  match cp_run acts s0 with
  | Some s => s
  | None => s0
  end.

Definition held_end : cp_state :=
  Eval vm_compute in run_from held_then_shutdown (cp_init false 1).

Definition direct_end : cp_state :=
  Eval vm_compute in run_from direct_get_put (cp_init false 1).

Definition two_calls_end : cp_state :=
  Eval vm_compute in run_from two_calls (cp_init false 2).

Definition execute_and_get_end : cp_state :=
  Eval vm_compute in run_from execute_and_get (cp_init false 2).

(** ** The invariant of the connection pool *)

(** The semaphore holds one token per admitted call and never more than its
    capacity; the wait group counts the calls between [wg.Add] and
    [wg.Done]; connections held or being made, plus idle ones, fit in the
    capacity; a caller of [Shutdown] past [cancel] sees the pool done; and
    once the wait of [Shutdown] is over, no call stands between the shutdown
    test of [Get] and the end of [Put]. *)
Record cp_inv (s : cp_state) : Prop := mkCpInv {
  inv_sema : sema (cp s) = sum_list_with holds_slot (calls s);
  inv_cap : sema (cp s) <= cp_cap (cp s);
  inv_wg : wg (cp s) = sum_list_with in_wg (calls s);
  inv_bound :
    sum_list_with has_conn (calls s) + length (idleCons (cp s)) <= cp_cap (cp s);
  inv_sd :
    sd s = SWait \/ sd s = SClose \/ sd s = SDrain -> cp_done (cp s) = true;
  inv_closed :
    sd s = SClose \/ sd s = SDrain \/ idle_closed (cp s) = true ->
    cp_done (cp s) = true /\ sum_list_with past_check (calls s) = 0
}.

(** A call that has not been admitted yet has made no connection and has not
    invoked [fn]. *)
Definition untouched (c : exec_call) : Prop :=
  match pc c with
  | EStart | ESema => created c = 0 /\ invoked c = 0
  | _ => True
  end.


(** ** The request handler (controller.go) *)

(** What [handlerRequest] writes to the response. *)
Inductive response : Type :=
| StatusOK (body : Data)
| StatusInternalServerError.

(** The task [handlerRequest] submits; [query] is [h.db.Query]. *)
Definition handler_task (query : ctx Data -> go (option error)) : Task Data :=
  fun c =>
    match query c with
    | Ret (Some e) => Ret ("", Some e)
    | Ret None => Ret ("pong", None)
    | Panic v => Panic v
    end.

(** The part of [handlerRequest] after [f.Get()] has returned. *)
Definition respond (r : Data * option error) : response :=
  match r with
  | (_, Some _) => StatusInternalServerError
  | (data, None) => StatusOK data
  end.

(** [handlerRequest]: the Submit, and the response once [f.Get()] on the
    future at address [p] returns ([None] while it blocks). *)
Definition handlerRequest (reqctx : ctx Data) (query : ctx Data -> go (option error))
    (s : system Data) : nat * system Data :=
  Submit reqctx (handler_task query) s.

Definition handler_response (p : nat) (s : system Data) : option response :=
  f ← heap s !! p; r ← Get f; Some (respond r).

(** ** Bookkeeping of the worker pool *)

(** The queue fits its channel, holds addresses of allocated futures, and
    holds them in the order they were allocated. *)
Record wp_inv {R : Type} (s : system R) : Prop := mkWpInv {
  wp_bound : (Z.of_nat (length (taskQueue (pool s))) <= wp_cap (pool s))%Z;
  wp_valid : Forall (fun p => p < length (heap s)) (taskQueue (pool s));
  wp_fifo : forall (i j p q : nat),
    taskQueue (pool s) !! i = Some p -> taskQueue (pool s) !! j = Some q ->
    i < j -> p < q
}.

(** ** Bookkeeping of the connection pool *)

(** How many statements of [Execute] a call has left at most. *)
Definition remaining (pc : epc) : nat :=
  match pc with
  | EStart => 11
  | ESema => 10
  | EAdd => 9
  | EGetCheck => 8
  | EGetSelect => 7
  | EFactory => 6
  | EFn _ => 5
  | EPutCheck _ _ => 4
  | EPutSelect _ _ => 3
  | EWgDone _ => 2
  | ERelease _ => 1
  | EReturned _ => 0
  end.

Definition returned (c : exec_call) : bool :=
  match pc c with
  | EReturned _ => true
  | _ => false
  end.

(** The semaphore and the wait group count exactly the calls that hold a
    slot and a unit. *)
Definition slots_inv (s : cp_state) : Prop :=
  sema (cp s) = sum_list_with holds_slot (calls s) /\
  wg (cp s) = sum_list_with in_wg (calls s).

(** Actions in which [Get] and [Put] are both reached only through
    [Execute]. *)
Definition through_Execute (a : cp_action) : bool :=
  match a with
  | CGetCheck | CGetSelect _ _ | CPutCheck _ | CPutSelect => false
  | _ => true
  end.

(** Where connection number [n] is: [is_conn n k] counts it in [k],
    [holds_id n c] in the hands of the call [c], and [places n s] in the
    whole state: with the calls of Execute, in the idle cache, and among the
    closed connections. *)
Definition is_conn (n : nat) (k : Conn) : nat :=
  match k with
  | conn m => if (n =? m)%nat then 1 else 0
  | nilConn => 0
  end.

Definition holds_id (n : nat) (c : exec_call) : nat :=
  match pc c with
  | EFn k | EPutCheck k _ | EPutSelect k _ => is_conn n k
  | _ => 0
  end.

Arguments holds_id n !c /.

Definition places (n : nat) (s : cp_state) : nat :=
  sum_list_with (holds_id n) (calls s)
  + sum_list_with (is_conn n) (idleCons (cp s))
  + sum_list_with (is_conn n) (closedConns s).

(** Every connection the factory has made is in exactly one place, and no
    other connection is anywhere. *)
Definition each_once (s : cp_state) : Prop :=
  forall n : nat, places n s = if (n <? next_conn s)%nat then 1 else 0.

(** What a call has done by the time it stands at a statement. *)
Definition call_ok (c : exec_call) : Prop :=
  match pc c with
  | EStart | ESema | EAdd | EGetCheck | EGetSelect | EFactory =>
      created c = 0 /\ invoked c = 0
  | EFn _ | EPutCheck _ _ | EPutSelect _ _ =>
      invoked c = 1 /\ created c <= 1
  | EWgDone r | ERelease r | EReturned r =>
      invoked c <= 1 /\ created c <= invoked c /\
      (invoked c = 0 -> exists e, r = Ret (Some e))
  end.

(** Steps in which [fn] does not panic. *)
Definition calm (a : cp_action) : bool :=
  match a with
  | CExec o _ => match fn_result o with Ret _ => true | Panic _ => false end
  | _ => true
  end.

(** A call holds a real connection, and carries a result, not a panic. *)
Definition sound (c : exec_call) : Prop :=
  match pc c with
  | EFn k => k <> nilConn
  | EPutCheck k r | EPutSelect k r => k <> nilConn /\ exists x, r = Ret x
  | EWgDone r | ERelease r | EReturned r => exists x, r = Ret x
  | _ => True
  end.

(** [Shutdown] run by its caller without interruption, for at most [fuel]
    statements; [None] when it blocks in [wg.Wait()] or the fuel runs out. *)
Fixpoint Shutdown_run (fuel : nat) (s : cp_state) : option cp_state :=
  match fuel with
  | 0 => None
  | S n =>
      s' ← Shutdown_step s;
      match sd s' with
      | SIdle => Some s'
      | _ => Shutdown_run n s'
      end
  end.

(** ** Inputs of the further examples *)

(** [pool1] with its worker at the [select]. *)
Definition pool1_waiting : system Data := set_worker 0 WSelect pool1.

(** Three submissions to [pool1], the last one beyond the capacity of the
    queue, then two steps of the worker. *)
Definition three_submits : list (wp_action Data) :=
  [WSubmit Background task_pong; WSubmit Background task_pong;
   WSubmit Background task_panic; WWorker true 0; WWorker true 0].

Definition wp_run_from (acts : list (wp_action Data)) (s0 : system Data)
    : system Data :=
  match wp_run acts s0 with
  | Some s => s
  | None => s0
  end.

Definition three_submits_end : system Data :=
  Eval vm_compute in wp_run_from three_submits pool1.

(** A query that succeeds. *)
Definition query_ok : ctx Data -> go (option error) := fun _ => Ret None.

Definition two_calls_finished : cp_state :=
  Eval vm_compute in run_from (two_calls ++ [CExec quiet 1]) (cp_init false 2).

(** A pool of capacity 2 with two idle connections and no call in flight,
    and the same pool after its parent context was cancelled. *)
Definition two_idle : cp_state := two_calls_finished.

Definition two_idle_cancelled : cp_state :=
  Eval vm_compute in run_from [CParentCancel] two_idle.

(** What can follow on the cancelled pool: a Shutdown, a new call of
    Execute, another Shutdown. *)
Definition after_cancel : list cp_action :=
  [CShutdown; CSpawn None; CExec quiet 2; CShutdown].

Definition after_cancel_end : cp_state :=
  Eval vm_compute in run_from after_cancel two_idle_cancelled.

(** ** Future whose task acts on the world *)

Section Future_effects.
Context {R : Type} `{!Zero R}.

(** The statements of [Run] after its [IsDone] test: [f.invoke()], then
    [f.callback(result, err)]. *)
Definition Run_body (f : Future R) : go (Future R) :=
  go_bind (invoke f) (fun '((result, err), f') => Ret (callback result err f')).

Context {W : Type}.

(** A task with side effects: besides its results it reads and changes a
    world [W] outside the future. *)
Definition TaskW : Type := ctx R -> W -> go (R * option error) * W.

(** The task as the future sees it when it is called in world [w], and the
    future of that task on context [c]. *)
Definition in_world (t : TaskW) (w : W) : Task R := fun c => fst (t c w).

Definition future_in (c : ctx R) (t : TaskW) (w : W) : Future R :=
  {| f_ctx := c; f_task := in_world t w |}.

(** [Run] in world [w]: the world changes in the call [f.task(f.ctx)] of
    [invoke], the only statement of [Run] that can touch it, and only when
    that call is made. *)
Definition Run_in (c : ctx R) (t : TaskW) (w : W) : go (Future R) * W :=
  let f := future_in c t w in
  if IsDone f then (Ret f, w)
  else (Run_body f, snd (t (f_ctx f) w)).
End Future_effects.
Arguments TaskW R W : clear implicits.

(** ** WorkerPool, one statement at a time

  The goroutines around a pool, each advanced one statement at a time: the
  workers from the first statement of [worker()] to its deferred
  [workerWaitGroup.Done()], with the task of a future as a call that returns
  when its own action comes (or never); the calls of [Submit], which test
  [IsShutdown] and reach the [select] in two steps; and the calls of
  [Shutdown], which wait in [workerWaitGroup.Wait()]. *)

Section WorkerPool_stmts.
Context {R : Type} `{!Zero R}.

(** Where a worker goroutine stands in [worker()]. *)
Inductive gpc : Type :=
| GStart           (* spawned by [go wp.worker()]: before [workerWaitGroup.Add(1)] *)
| GCheck           (* top of the loop: [if wp.IsShutdown()] *)
| GSelect          (* at the [select] *)
| GRun (p : nat)   (* received the future at [p]: at [if f.IsDone()] of [Run] *)
| GTask (p : nat)  (* inside [f.task(f.ctx)], called by [invoke] *)
| GDone            (* returning: the deferred [workerWaitGroup.Done()] *)
| GExited.         (* returned *)

(** Where a call of [Submit] stands. *)
Inductive subpc : Type :=
| SubCheck (c : ctx R) (task : Task R)  (* at [if wp.IsShutdown()] *)
| SubSelect (c : ctx R) (future : nat)  (* [future] built: at the [select] *)
| SubReturned (future : nat).

(** Where a call of [Shutdown] stands. *)
Inductive shpc : Type :=
| ShCheck      (* at [if wp.IsShutdown()] *)
| ShCancel     (* at [wp.cancel(ErrWorkerPoolShutdown)] *)
| ShWait       (* at [wp.workerWaitGroup.Wait()] *)
| ShReturned.

(** The pool, the futures it shares with its callers, the counter of its
    wait group, and every goroutine that runs one of its methods. *)
Record pool_state : Type := mkPoolState {
  ps_pool : workerPool R;
  ps_heap : list (Future R);
  workerWaitGroup : nat;
  goroutines : list gpc;
  submits : list subpc;
  shutdowns : list shpc;
  ps_crashed : option string
}.

Definition with_queue (q : list nat) (wp : workerPool R) : workerPool R :=
  {| wp_ctx := wp_ctx wp; wp_size := wp_size wp; wp_cap := wp_cap wp;
     taskQueue := q |}.

Definition with_ctx (c : ctx R) (wp : workerPool R) : workerPool R :=
  {| wp_ctx := c; wp_size := wp_size wp; wp_cap := wp_cap wp;
     taskQueue := taskQueue wp |}.

Definition ps_with_pool (wp : workerPool R) (s : pool_state) : pool_state :=
  {| ps_pool := wp; ps_heap := ps_heap s; workerWaitGroup := workerWaitGroup s;
     goroutines := goroutines s; submits := submits s; shutdowns := shutdowns s;
     ps_crashed := ps_crashed s |}.

Definition ps_with_heap (h : list (Future R)) (s : pool_state) : pool_state :=
  {| ps_pool := ps_pool s; ps_heap := h; workerWaitGroup := workerWaitGroup s;
     goroutines := goroutines s; submits := submits s; shutdowns := shutdowns s;
     ps_crashed := ps_crashed s |}.

Definition ps_with_wg (n : nat) (s : pool_state) : pool_state :=
  {| ps_pool := ps_pool s; ps_heap := ps_heap s; workerWaitGroup := n;
     goroutines := goroutines s; submits := submits s; shutdowns := shutdowns s;
     ps_crashed := ps_crashed s |}.

Definition ps_with_goroutines (l : list gpc) (s : pool_state) : pool_state :=
  {| ps_pool := ps_pool s; ps_heap := ps_heap s; workerWaitGroup := workerWaitGroup s;
     goroutines := l; submits := submits s; shutdowns := shutdowns s;
     ps_crashed := ps_crashed s |}.

Definition ps_with_submits (l : list subpc) (s : pool_state) : pool_state :=
  {| ps_pool := ps_pool s; ps_heap := ps_heap s; workerWaitGroup := workerWaitGroup s;
     goroutines := goroutines s; submits := l; shutdowns := shutdowns s;
     ps_crashed := ps_crashed s |}.

Definition ps_with_shutdowns (l : list shpc) (s : pool_state) : pool_state :=
  {| ps_pool := ps_pool s; ps_heap := ps_heap s; workerWaitGroup := workerWaitGroup s;
     goroutines := goroutines s; submits := submits s; shutdowns := l;
     ps_crashed := ps_crashed s |}.

Definition ps_crash (v : string) (s : pool_state) : pool_state :=
  {| ps_pool := ps_pool s; ps_heap := ps_heap s; workerWaitGroup := workerWaitGroup s;
     goroutines := goroutines s; submits := submits s; shutdowns := shutdowns s;
     ps_crashed := Some v |}.

Definition goto_g (i : nat) (g : gpc) (s : pool_state) : pool_state :=
  ps_with_goroutines (<[i := g]> (goroutines s)) s.

Definition goto_sub (k : nat) (sp : subpc) (s : pool_state) : pool_state :=
  ps_with_submits (<[k := sp]> (submits s)) s.

Definition goto_sh (k : nat) (sh : shpc) (s : pool_state) : pool_state :=
  ps_with_shutdowns (<[k := sh]> (shutdowns s)) s.

(** The pool as [NewWorkerPool] leaves it: every [go wp.worker()] has made
    a goroutine that stands at the first statement of [worker()], and the
    wait group has not been touched. *)
Definition spawned (s0 : system R) : pool_state :=
  {| ps_pool := pool s0; ps_heap := heap s0; workerWaitGroup := 0;
     goroutines := (fun _ => GStart) <$> workers s0;
     submits := []; shutdowns := []; ps_crashed := crashed s0 |}.

Definition ps_alloc (f : Future R) (s : pool_state) : nat * pool_state :=
  (length (ps_heap s), ps_with_heap (ps_heap s ++ [f]) s).

Definition ps_enqueue (p : nat) (s : pool_state) : pool_state :=
  ps_with_pool (with_queue (taskQueue (ps_pool s) ++ [p]) (ps_pool s)) s.

(** One statement of the call [k] of [Submit].  The test of [IsShutdown]
    and the [select] are two steps: anything can happen between them. *)
Definition Submit_stmt (k : nat) (s : pool_state) : option pool_state :=
  match submits s !! k with
  | Some (SubCheck c task) =>
      if IsShutdown (ps_pool s) then
        let '(p, s1) :=
          ps_alloc (NewFuture c (fun _ => Ret (zero, Some ErrWorkerPoolShutdown))) s in
        Some (goto_sub k (SubReturned p) s1)
      else
        let '(future, s1) := ps_alloc (NewFuture c task) s in
        Some (goto_sub k (SubSelect c future) s1)
  | Some (SubSelect c future) =>
      if (Z.of_nat (length (taskQueue (ps_pool s))) <? wp_cap (ps_pool s))%Z then
        Some (goto_sub k (SubReturned future) (ps_enqueue future s))
      else
        let '(p, s1) :=
          ps_alloc (NewFuture c (fun _ => Ret (zero, Some ErrTaskQueueFull))) s in
        Some (goto_sub k (SubReturned p) s1)
  | _ => None
  end.

(** One statement of the call [k] of [Shutdown]; [None] while it blocks in
    [Wait] (the counter is not zero), or when it has returned. *)
Definition Shutdown_stmt (k : nat) (s : pool_state) : option pool_state :=
  match shutdowns s !! k with
  | Some ShCheck =>
      if IsShutdown (ps_pool s) then Some (goto_sh k ShReturned s)
      else Some (goto_sh k ShCancel s)
  | Some ShCancel =>
      Some (goto_sh k ShWait
              (ps_with_pool
                 (with_ctx (cancel (causeErr ErrWorkerPoolShutdown) (wp_ctx (ps_pool s)))
                           (ps_pool s)) s))
  | Some ShWait =>
      match workerWaitGroup s with
      | 0 => Some (goto_sh k ShReturned s)
      | S _ => None
      end
  | _ => None
  end.

(** The receive case of the worker's [select]. *)
Definition receive (i p : nat) (rest : list nat) (s : pool_state) : pool_state :=
  goto_g i (GRun p) (ps_with_pool (with_queue rest (ps_pool s)) s).

(** One statement of worker [i]; [prefer_task] is the scheduler's pick when
    both cases of the [select] are ready.  [None]: the worker cannot move
    by itself: it blocks in the [select], it is inside a task, or it has
    returned.  [Done] on a counter at zero panics. *)
Definition worker_stmt (prefer_task : bool) (i : nat) (s : pool_state)
    : option pool_state :=
  match goroutines s !! i with
  | Some GStart => Some (goto_g i GCheck (ps_with_wg (S (workerWaitGroup s)) s))
  | Some GCheck =>
      if IsShutdown (ps_pool s) then Some (goto_g i GDone s)
      else Some (goto_g i GSelect s)
  | Some GSelect =>
      match taskQueue (ps_pool s), IsShutdown (ps_pool s) with
      | p :: rest, true =>
          if prefer_task then Some (receive i p rest s)
          else Some (goto_g i GDone s)
      | p :: rest, false => Some (receive i p rest s)
      | [], true => Some (goto_g i GDone s)
      | [], false => None
      end
  | Some (GRun p) =>
      f ← ps_heap s !! p;
      if IsDone f then Some (goto_g i GCheck s)
      else Some (goto_g i (GTask p) s)
  | Some GDone =>
      match workerWaitGroup s with
      | 0 => Some (ps_crash "sync: negative WaitGroup counter" (goto_g i GExited s))
      | S n => Some (goto_g i GExited (ps_with_wg n s))
      end
  | Some (GTask _) | Some GExited | None => None
  end.

(** The task that worker [i] is in returns or panics: the rest of [invoke]
    and of [Run] follows.  The task is given the future's context as it
    stands at that moment. *)
Definition task_returns (i : nat) (s : pool_state) : option pool_state :=
  match goroutines s !! i with
  | Some (GTask p) =>
      f ← ps_heap s !! p;
      match Run_body f with
      | Ret f' => Some (goto_g i GCheck (ps_with_heap (<[p := f']> (ps_heap s)) s))
      | Panic v => Some (ps_crash v (goto_g i GExited s))
      end
  | _ => None
  end.

(** What a caller holding the future at [p] can do to it meanwhile. *)
Definition on_future (p : nat) (g : Future R -> Future R) (s : pool_state)
    : option pool_state :=
  f ← ps_heap s !! p; Some (ps_with_heap (<[p := g f]> (ps_heap s)) s).

(** Everything that can happen around a running pool. *)
Inductive ps_action : Type :=
| PCallSubmit (c : ctx R) (task : Task R)  (* a caller enters [Submit] *)
| PSubmit (k : nat)                        (* next statement of that call *)
| PCallShutdown                            (* a caller enters [Shutdown] *)
| PShutdown (k : nat)                      (* next statement of that call *)
| PWorker (prefer_task : bool) (i : nat)   (* next statement of worker [i] *)
| PTaskReturns (i : nat)                   (* the task run by worker [i] ends *)
| PParentDone (e : error) (cs : cause R)   (* the context given to
                                              [NewWorkerPool] is cancelled *)
| PCancel (p : nat)                        (* [Cancel()] on the future at [p] *)
| PCallerDone (p : nat) (e : error) (cs : cause R).
                                           (* the context that future was
                                              built on is cancelled *)

Definition ps_step (a : ps_action) (s : pool_state) : option pool_state :=
  match a with
  | PCallSubmit c task => Some (ps_with_submits (submits s ++ [SubCheck c task]) s)
  | PSubmit k => Submit_stmt k s
  | PCallShutdown => Some (ps_with_shutdowns (shutdowns s ++ [ShCheck]) s)
  | PShutdown k => Shutdown_stmt k s
  | PWorker b i => worker_stmt b i s
  | PTaskReturns i => task_returns i s
  | PParentDone e cs =>
      Some (ps_with_pool (with_ctx (parentDone e cs (wp_ctx (ps_pool s))) (ps_pool s)) s)
  | PCancel p => on_future p Cancel s
  | PCallerDone p e cs =>
      on_future p (fun f => {| f_ctx := parentDone e cs (f_ctx f);
                               f_task := f_task f |}) s
  end.

Fixpoint ps_run (acts : list ps_action) (s : pool_state) : option pool_state :=
  match acts with
  | [] => Some s
  | a :: acts' => s' ← ps_step a s; ps_run acts' s'
  end.

(** The worker that an action advances, if any. *)
Definition mover (a : ps_action) : option nat :=
  match a with
  | PWorker _ i | PTaskReturns i => Some i
  | _ => None
  end.

(** The pool and the futures of a state, as [Submit] and [take_and_run]
    above see them. *)
Definition as_system (s : pool_state) : system R :=
  {| pool := ps_pool s; heap := ps_heap s; workers := []; crashed := ps_crashed s |}.

(** A worker between its [Add(1)] and its [Done()]. *)
Definition registered (g : gpc) : nat :=
  match g with
  | GCheck | GSelect | GRun _ | GTask _ | GDone => 1
  | GStart | GExited => 0
  end.

(** A call of [Submit] that has passed the test and stands at the
    [select]. *)
Definition at_select (sp : subpc) : nat :=
  match sp with
  | SubSelect _ _ => 1
  | _ => 0
  end.

(** How many steps (its own statements and the return of its task) a
    worker has left at most once the pool is shut down. *)
Definition gpc_rank (g : gpc) : nat :=
  match g with
  | GSelect => 5
  | GRun _ => 4
  | GTask _ => 3
  | GStart => 3
  | GCheck => 2
  | GDone => 1
  | GExited => 0
  end.

Definition worker_rank (i : nat) (s : pool_state) : nat :=
  match goroutines s !! i with
  | Some g => gpc_rank g
  | None => 0
  end.

(** The wait group counts the workers between [Add] and [Done], every
    address held by the queue or by a goroutine is that of a future, and no
    panic has escaped. *)
Record ps_inv (s : pool_state) : Prop := mkPsInv {
  ps_counted : workerWaitGroup s = sum_list_with registered (goroutines s);
  ps_valid_queue : Forall (fun p => p < length (ps_heap s)) (taskQueue (ps_pool s));
  ps_valid_workers :
    Forall (fun g => match g with
                     | GRun p | GTask p => p < length (ps_heap s)
                     | _ => True
                     end) (goroutines s);
  ps_valid_submits :
    Forall (fun sp => match sp with
                      | SubSelect _ p => p < length (ps_heap s)
                      | _ => True
                      end) (submits s);
  ps_sound : ps_crashed s = None
}.
End WorkerPool_stmts.
Arguments pool_state R : clear implicits.
Arguments ps_action R : clear implicits.
Arguments subpc R : clear implicits.
Arguments registered !g /.
Arguments at_select {R} !sp /.
Arguments gpc_rank !g /.

(** ** Inputs of the examples on the interleaved pool *)

Definition ps_run_from (acts : list (ps_action Data)) (s0 : pool_state Data)
    : pool_state Data :=
  match ps_run acts s0 with
  | Some s => s
  | None => s0
  end.

(** A call of Submit passes the test of IsShutdown on the live [pool1];
    then a call of Shutdown cancels the pool's context. *)
Definition submit_in_flight : list (ps_action Data) :=
  [PCallSubmit Background task_pong; PSubmit 0;
   PCallShutdown; PShutdown 0; PShutdown 0].

Definition submit_in_flight_end : pool_state Data :=
  Eval vm_compute in ps_run_from submit_in_flight (spawned pool1).

(** What follows on the pool that is now shut down: the call of Submit that
    was in flight reaches its [select]; a second call of Submit and a second
    call of Shutdown run from their first statement. *)
Definition late_send : list (ps_action Data) :=
  [PSubmit 0; PCallSubmit Background task_panic; PSubmit 1;
   PCallShutdown; PShutdown 1].

Definition late_send_end : pool_state Data :=
  Eval vm_compute in ps_run_from late_send submit_in_flight_end.

(** The worker of [pool1] registers and reaches its [select]; a future is
    submitted and received; the worker enters the task; a call of Shutdown
    cancels the pool's context and reaches [Wait]. *)
Definition worker_in_task : list (ps_action Data) :=
  [PWorker true 0; PWorker true 0;
   PCallSubmit Background task_pong; PSubmit 0; PSubmit 0;
   PWorker true 0; PWorker true 0;
   PCallShutdown; PShutdown 0; PShutdown 0].

Definition worker_in_task_end : pool_state Data :=
  Eval vm_compute in ps_run_from worker_in_task (spawned pool1).

Definition task_returned_end : pool_state Data :=
  Eval vm_compute in ps_run_from [PTaskReturns 0] worker_in_task_end.


(** * Properties *)

(** ** Future *)

Section Future_facts.
Context {R : Type} `{!Zero R}.
Implicit Types (f : Future R) (ev : event R) (evs : list (event R)).

Lemma IsDone_ctx f :
  IsDone f = true <-> exists e cs, f_ctx f = Some (e, cs).
Proof.
  unfold IsDone. destruct f as [[[e cs]|] t]; simpl; split.
  - intros _. eauto.
  - intros _. reflexivity.
  - intros H. discriminate H.
  - intros (e & cs & H). discriminate H.
Qed.

Lemma IsDone_false_ctx f : IsDone f = false <-> f_ctx f = None.
Proof.
  unfold IsDone. destruct f as [[[e cs]|] t]; simpl; split; intros H;
    try reflexivity; discriminate H.
Qed.

Lemma callback_done result err f : IsDone f = true -> callback result err f = f.
Proof.
  intros H. apply IsDone_ctx in H as (e & cs & H).
  destruct f as [c t]. simpl in H. subst c. reflexivity.
Qed.

Lemma callback_IsDone result err f : IsDone (callback result err f) = true.
Proof. destruct f as [[[e cs]|] t]; reflexivity. Qed.

Lemma invoke_returns f : exists r f', invoke f = Ret (r, f').
Proof.
  unfold invoke, defer_recover. destruct (f_task f (f_ctx f)); eauto.
Qed.

(** [Run] always returns to its caller, and leaves the future done. *)
Lemma Run_returns f : exists f', Run f = Ret f' /\ IsDone f' = true.
Proof.
  unfold Run. destruct (IsDone f) eqn:Hd.
  - eauto.
  - destruct (invoke_returns f) as ([r e] & f' & ->). simpl.
    eexists. split; [reflexivity | apply callback_IsDone].
Qed.

Lemma Run_done f : IsDone f = true -> Run f = Ret f.
Proof. intros H. unfold Run. rewrite H. reflexivity. Qed.

Lemma do_call_returns (c : call) f :
  exists f', do_call c f = Ret f' /\ IsDone f' = true.
Proof.
  destruct c; simpl.
  - apply Run_returns.
  - eexists. split; [reflexivity | apply callback_IsDone].
Qed.

Lemma do_event_done ev f : IsDone f = true -> do_event ev f = Ret f.
Proof.
  intros H. destruct ev as [[|]|e cs]; simpl.
  - apply Run_done, H.
  - unfold Cancel. rewrite callback_done by exact H. reflexivity.
  - apply IsDone_ctx in H as (e' & cs' & H).
    destruct f as [c t]. simpl in *. subst c. reflexivity.
Qed.

Lemma do_events_done evs f : IsDone f = true -> do_events evs f = Ret f.
Proof.
  intros H. induction evs as [|ev evs IH]; simpl.
  - reflexivity.
  - rewrite do_event_done by exact H. simpl. exact IH.
Qed.

Lemma Get_done f : IsDone f = true -> is_Some (Get f).
Proof.
  intros H. apply IsDone_ctx in H as (e & cs & H).
  unfold Get. rewrite H. destruct cs; simpl; eauto.
Qed.

(** The three ways a pending future gets completed. *)
Lemma Run_pending f :
  IsDone f = false ->
  exists f', Run f = Ret f' /\
    Get f' = Some (match f_task f None with
                   | Ret p => p
                   | Panic v => (zero, Some (ErrTaskPanicked v))
                   end).
Proof.
  intros H. unfold Run. rewrite H. apply IsDone_false_ctx in H.
  unfold invoke, defer_recover. rewrite H.
  destruct (f_task f None) as [[r e]|v]; simpl;
    eexists; (split; [reflexivity|]); unfold Get; simpl; rewrite H; reflexivity.
Qed.

Lemma Cancel_pending f :
  IsDone f = false -> Get (Cancel f) = Some (zero, Some Canceled).
Proof.
  intros H. apply IsDone_false_ctx in H. unfold Get, Cancel. simpl.
  rewrite H. reflexivity.
Qed.

(** C1. Whatever state a future is in, a call of Run() or Cancel() returns and
    leaves it completed, with a pair that Get() returns; whatever calls of
    Run() and Cancel() and cancellations of the parent context follow, they
    all return and the stored cause and the answer of Get() stay the ones
    left by that first call.  On a future just built on a live context the
    first call decides: Run() stores the pair the task returns, or the zero
    value with the "task panicked" error when the task panics; Cancel()
    stores the zero value with context.Canceled. *)
Theorem future_first_completion_wins :
  (forall f (c : call) evs,
      exists f1, do_call c f = Ret f1 /\ IsDone f1 = true /\ is_Some (Get f1) /\
        exists f2, do_events evs f1 = Ret f2 /\
          stored f2 = stored f1 /\ Get f2 = Get f1) /\
  (forall (task : Task R) evs,
      exists f1 f2, Run (NewFuture Background task) = Ret f1 /\
        do_events evs f1 = Ret f2 /\
        Get f2 = Some (match task None with
                       | Ret p => p
                       | Panic v => (zero, Some (ErrTaskPanicked v))
                       end)) /\
  (forall (task : Task R) evs,
      exists f2, do_events evs (Cancel (NewFuture Background task)) = Ret f2 /\
        Get f2 = Some (zero, Some Canceled)).
Proof.
  split; [|split].
  - intros f c evs. destruct (do_call_returns c f) as (f1 & Hc & Hd).
    exists f1. split; [exact Hc|]. split; [exact Hd|].
    split; [apply Get_done, Hd|].
    exists f1. rewrite do_events_done by exact Hd. auto.
  - intros task evs.
    destruct (Run_pending (NewFuture Background task) eq_refl) as (f1 & Hr & Hg).
    destruct (Run_returns (NewFuture Background task)) as (f1' & Hr' & Hd).
    rewrite Hr in Hr'. injection Hr' as <-.
    exists f1, f1. rewrite do_events_done by exact Hd. auto.
  - intros task evs. exists (Cancel (NewFuture Background task)).
    rewrite do_events_done by apply callback_IsDone. split; reflexivity.
Qed.

(** [Run] is its test followed by [Run_body], and [Run_in] returns what
    [Run] returns on the future of the task called in that world. *)
Lemma Run_unfold f : Run f = if IsDone f then Ret f else Run_body f.
Proof. reflexivity. Qed.

Lemma Run_in_Run {W : Type} (c : ctx R) (t : TaskW R W) (w : W) :
  fst (Run_in c t w) = Run (future_in c t w).
Proof.
  unfold Run_in. rewrite Run_unfold.
  destruct (IsDone (future_in c t w)); reflexivity.
Qed.

(** On a pending future [Run] calls the task: the world is the one the
    task leaves. *)
Lemma Run_in_pending {W : Type} (t : TaskW R W) (w : W) :
  snd (Run_in None t w) = snd (t None w).
Proof. reflexivity. Qed.

(** C4 (amended). When the context a pending future was built on is
    cancelled, the future is completed by that cancellation.  Get(), which
    blocked before, returns the zero value with the cause of the
    cancellation as the error, unless that cause is the stored result of
    another future (the context was that future's own): then Get() returns
    that other future's pair.  A later Run() returns without calling the
    task, whatever the task would do to the world, and no later call or
    cancellation changes what Get() returns. *)
Theorem parent_cancel_completes_future f (e : error) (cs : cause R) evs :
  IsDone f = false ->
  let f' := {| f_ctx := parentDone e cs (f_ctx f); f_task := f_task f |} in
  Get f = None /\
  Get f' = Some (match cs with
                 | futureResult result err => (result, err)
                 | causeErr e' => (zero, Some e')
                 end) /\
  IsDone f' = true /\
  Run f' = Ret f' /\
  (forall (W : Type) (t : TaskW R W) (w : W),
      Run_in (f_ctx f') t w = (Ret (future_in (f_ctx f') t w), w)) /\
  do_events evs f' = Ret f'.
Proof.
  intros Hd f'. apply IsDone_false_ctx in Hd.
  assert (Hd' : IsDone f' = true).
  { apply IsDone_ctx. subst f'. simpl. rewrite Hd. simpl. eauto. }
  split; [unfold Get; rewrite Hd; reflexivity|].
  split; [subst f'; unfold Get; simpl; rewrite Hd; destruct cs; reflexivity|].
  split; [exact Hd'|]. split; [apply Run_done, Hd'|].
  split; [|apply do_events_done, Hd'].
  intros W t w. subst f'. simpl. rewrite Hd. reflexivity.
Qed.
End Future_facts.

Lemma parent_cancel_completes_future_witness :
  let f' := {| f_ctx := Some (Canceled, futureResult "outer" None);
               f_task := task_pong |} in
  Get (NewFuture Background task_pong) = None /\
  Get f' = Some ("outer", None) /\
  IsDone f' = true /\
  Run f' = Ret f' /\
  (forall (W : Type) (t : TaskW Data W) (w : W),
      Run_in (f_ctx f') t w = (Ret (future_in (f_ctx f') t w), w)) /\
  do_events [Call CallRun; Call CallCancel] f' = Ret f'.
Proof.
  apply (parent_cancel_completes_future (NewFuture Background task_pong)
           Canceled (futureResult "outer" None) [Call CallRun; Call CallCancel]).
  reflexivity.
Defined.

(** C4 as stated fails on the future of [handlerRequest] built on a live
    request context: once that context is cancelled the stored cause is no
    longer the one before, and it is not true that running the task
    afterwards makes Get() return what the task returns, here ("pong", nil). *)
Lemma caller_cancel_mutates_future :
  ~ (forall (f : Future Data) (e : error),
       IsDone f = false ->
       stored {| f_ctx := parentDone e (causeErr e) (f_ctx f); f_task := f_task f |}
       = stored f) /\
  ~ (forall (f : Future Data) (e : error),
       IsDone f = false ->
       exists f2,
         Run {| f_ctx := parentDone e (causeErr e) (f_ctx f); f_task := f_task f |}
         = Ret f2 /\
         Get f2 = Some (match f_task f None with
                        | Ret p => p
                        | Panic v => (zero, Some (ErrTaskPanicked v))
                        end)).
Proof.
  split; intros H.
  - specialize (H (NewFuture Background task_pong) Canceled eq_refl).
    discriminate H.
  - destruct (H (NewFuture Background task_pong) Canceled eq_refl) as (f2 & Hr & Hg).
    injection Hr as <-. discriminate Hg.
Qed.

(** ** WorkerPool *)

Section WorkerPool_facts.
Context {R : Type} `{!Zero R}.
Implicit Types (s : system R) (f : Future R).

Lemma wrap_int_small (z : Z) :
  (- 2 ^ 63 <= z < 2 ^ 63)%Z -> wrap_int z = z.
Proof.
  intros H. unfold wrap_int. rewrite Z.mod_small; lia.
Qed.

Lemma wrap_int_high (z : Z) :
  (2 ^ 63 <= z < 2 ^ 64)%Z -> (wrap_int z < 0)%Z.
Proof.
  intros H. unfold wrap_int.
  replace (z + 2 ^ 63)%Z with ((z - 2 ^ 63) + 1 * 2 ^ 64)%Z by lia.
  rewrite Z.mod_add by lia. rewrite Z.mod_small; lia.
Qed.


Lemma set_worker_lookup i pc s :
  i < length (workers s) -> workers (set_worker i pc s) !! i = Some pc.
Proof. intros H. simpl. apply list_lookup_insert_eq, H. Qed.

Lemma take_and_run_exited i p rest s :
  workers s !! i = Some WSelect ->
  worker_exited i (take_and_run i p rest s) = false.
Proof.
  intros Hi. unfold take_and_run, worker_exited.
  destruct (heap s !! p) as [f|] eqn:Hp.
  - destruct (Run_returns f) as (f' & -> & _). simpl.
    rewrite list_lookup_insert_eq; [reflexivity|].
    apply lookup_lt_Some in Hi. exact Hi.
  - rewrite Hi. reflexivity.
Qed.

(** C3 (amended). A worker returns only when the pool's context is done:
    whenever a step of a worker makes it return, the pool is shut down, and
    the step leaves the queue and every future as they were, whether or not
    futures are still queued. *)
Theorem worker_returns_only_on_shutdown (b : bool) (i : nat) s s' :
  worker_step b i s = Some s' ->
  worker_exited i s' = true ->
  IsShutdown (pool s) = true /\
  taskQueue (pool s') = taskQueue (pool s) /\
  heap s' = heap s.
Proof.
  unfold worker_step. intros Hstep Hex.
  destruct (workers s !! i) as [[| |]|] eqn:Hi; try discriminate.
  - destruct (IsShutdown (pool s)) eqn:Hsd; injection Hstep as <-.
    + auto.
    + unfold worker_exited in Hex.
      rewrite set_worker_lookup in Hex by (eapply lookup_lt_Some; eauto).
      discriminate.
  - destruct (taskQueue (pool s)) as [|p rest] eqn:Hq;
      destruct (IsShutdown (pool s)) eqn:Hsd; try discriminate.
    + injection Hstep as <-. simpl. auto.
    + destruct b; injection Hstep as <-.
      * rewrite take_and_run_exited in Hex by exact Hi. discriminate.
      * simpl. auto.
    + injection Hstep as <-.
      rewrite take_and_run_exited in Hex by exact Hi. discriminate.
Qed.

(** While the pool is live, a worker at its [select] takes the oldest
    queued future and runs it. *)
Lemma worker_runs_oldest (b : bool) (i p : nat) (rest : list nat) s f :
  workers s !! i = Some WSelect ->
  IsShutdown (pool s) = false ->
  taskQueue (pool s) = p :: rest ->
  heap s !! p = Some f ->
  exists s' f', worker_step b i s = Some s' /\ Run f = Ret f' /\
    heap s' !! p = Some f' /\ IsDone f' = true /\
    taskQueue (pool s') = rest /\ workers s' !! i = Some WCheck /\
    crashed s' = crashed s.
Proof.
  intros Hi Hsd Hq Hp. unfold worker_step. rewrite Hi, Hq, Hsd.
  unfold take_and_run. rewrite Hp.
  destruct (Run_returns f) as (f' & Hr & Hd). rewrite Hr.
  eexists _, f'. split; [reflexivity|]. simpl.
  split; [reflexivity|].
  rewrite !list_lookup_insert_eq by (eapply lookup_lt_Some; eauto). auto.
Qed.

(** What [Submit] hands out on a pool that is shut down: a future built on
    the caller's context that nobody has run. *)
Lemma Submit_after_shutdown (c : ctx R) (task : Task R) s :
  IsShutdown (pool s) = true ->
  exists f, heap (snd (Submit c task s)) !! fst (Submit c task s) = Some f /\
    f_ctx f = c /\ taskQueue (pool (snd (Submit c task s))) = taskQueue (pool s).
Proof.
  intros H. unfold Submit. rewrite H. simpl.
  eexists. split.
  - rewrite lookup_app_r by lia. rewrite Nat.sub_diag. reflexivity.
  - split; reflexivity.
Qed.

(** C8. When the task of a pending future panics, Run() still returns; the
    future is then done and Get() returns the zero value with the error
    whose text is "task panicked: " followed by the panic value.  No task
    at all makes Run() panic.  A worker that takes such a future from the
    queue stores that error in it and is back at the top of its loop, with
    no panic escaping its goroutine. *)
Theorem panicking_task_becomes_error f (v : string) (b : bool) (i p : nat)
    (rest : list nat) s :
  IsDone f = false ->
  f_task f (f_ctx f) = Panic v ->
  workers s !! i = Some WSelect ->
  IsShutdown (pool s) = false ->
  taskQueue (pool s) = p :: rest ->
  heap s !! p = Some f ->
  (exists f', Run f = Ret f' /\ IsDone f' = true /\
     Get f' = Some (zero, Some (ErrTaskPanicked v)) /\
     Error (ErrTaskPanicked v) = String.append "task panicked: " v) /\
  (forall g : Future R, exists g', Run g = Ret g') /\
  (exists s' f', worker_step b i s = Some s' /\
     heap s' !! p = Some f' /\
     Get f' = Some (zero, Some (ErrTaskPanicked v)) /\
     workers s' !! i = Some WCheck /\ crashed s' = crashed s).
Proof.
  intros Hd Hp Hi Hsd Hq Hh.
  destruct (Run_pending f Hd) as (f' & Hr & Hg).
  destruct (Run_returns f) as (f'' & Hr' & Hd').
  rewrite Hr in Hr'. injection Hr' as <-.
  assert (Hget : Get f' = Some (zero, Some (ErrTaskPanicked v))).
  { apply IsDone_false_ctx in Hd. rewrite Hd in Hp. rewrite Hp in Hg. exact Hg. }
  split; [|split].
  - exists f'. auto.
  - intros g. destruct (Run_returns g) as (g' & Hrg & _). eauto.
  - destruct (worker_runs_oldest b i p rest s f Hi Hsd Hq Hh)
      as (s' & f2 & Hstep & Hr2 & Hh2 & _ & _ & Hw & Hc).
    rewrite Hr in Hr2. injection Hr2 as <-.
    exists s', f'. auto.
Qed.
End WorkerPool_facts.

Lemma panicking_task_becomes_error_witness :
  (exists f', Run (NewFuture Background task_panic) = Ret f' /\ IsDone f' = true /\
     Get f' = Some (zero, Some (ErrTaskPanicked "boom")) /\
     Error (ErrTaskPanicked "boom") = "task panicked: boom") /\
  (forall g : Future Data, exists g', Run g = Ret g') /\
  (exists s' f', worker_step true 0 panic_queued = Some s' /\
     heap s' !! 0 = Some f' /\
     Get f' = Some (zero, Some (ErrTaskPanicked "boom")) /\
     workers s' !! 0 = Some WCheck /\ crashed s' = crashed panic_queued).
Proof.
  apply (panicking_task_becomes_error (NewFuture Background task_panic) "boom"
           true 0 0 [] panic_queued);
    reflexivity.
Defined.


Lemma worker_returns_only_on_shutdown_witness :
  IsShutdown (pool (Shutdown_pool (snd (Submit Background task_pong pool1)))) = true /\
  taskQueue (pool (set_worker 0 WExited
                     (Shutdown_pool (snd (Submit Background task_pong pool1)))))
  = taskQueue (pool (Shutdown_pool (snd (Submit Background task_pong pool1)))) /\
  heap (set_worker 0 WExited
          (Shutdown_pool (snd (Submit Background task_pong pool1))))
  = heap (Shutdown_pool (snd (Submit Background task_pong pool1))).
Proof.
  apply (worker_returns_only_on_shutdown true 0
           (Shutdown_pool (snd (Submit Background task_pong pool1)))
           (set_worker 0 WExited
              (Shutdown_pool (snd (Submit Background task_pong pool1)))));
    reflexivity.
Defined.

(** C3 as stated fails: on a pool of one worker, a task is queued, the pool
    is shut down, and the worker then reaches the top of its loop.  It
    returns although the queue still holds the future; the future is not
    done, Get() on it still blocks, and no worker is left to run it. *)
Lemma worker_exits_with_queued_future :
  exists s : system Data,
    wp_run [WSubmit Background task_pong; WShutdown; WWorker true 0] pool1 = Some s /\
    worker_exited 0 s = true /\ all_exited s = true /\
    taskQueue (pool s) = [0] /\
    (exists f, heap s !! 0 = Some f /\ IsDone f = false /\ Get f = None) /\
    (forall b i, worker_step b i s = None).
Proof.
  eexists. split; [reflexivity|]. simpl.
  repeat split; try reflexivity.
  - eexists. repeat split; reflexivity.
  - intros b [|i]; reflexivity.
Qed.

(** C2. Evaluated on a pool that was shut down, and on a pool whose queue
    of capacity 2 is full, with the live context of a caller: the future
    that Submit returns is not queued, is not done, and Get() on it blocks;
    only a Run() that Submit does not make would store the error. *)
Theorem Submit_rejection_is_pending :
  (exists f f',
     heap (snd (Submit Background task_pong (Shutdown_pool pool1)))
       !! fst (Submit Background task_pong (Shutdown_pool pool1)) = Some f /\
     queued (fst (Submit Background task_pong (Shutdown_pool pool1)))
            (snd (Submit Background task_pong (Shutdown_pool pool1))) = false /\
     IsDone f = false /\ Get f = None /\
     Run f = Ret f' /\ Get f' = Some (zero, Some ErrWorkerPoolShutdown) /\
     Error ErrWorkerPoolShutdown = "worker pool is shutdown") /\
  (exists s2 f f',
     wp_run [WSubmit Background task_pong; WSubmit Background task_pong] pool1
     = Some s2 /\
     Z.of_nat (length (taskQueue (pool s2))) = wp_cap (pool s2) /\
     heap (snd (Submit Background task_pong s2))
       !! fst (Submit Background task_pong s2) = Some f /\
     queued (fst (Submit Background task_pong s2))
            (snd (Submit Background task_pong s2)) = false /\
     IsDone f = false /\ Get f = None /\
     Run f = Ret f' /\ Get f' = Some (zero, Some ErrTaskQueueFull) /\
     Error ErrTaskQueueFull = "task queue is full").
Proof.
  split.
  - eexists _, _. repeat split; reflexivity.
  - eexists _, _, _. repeat split; reflexivity.
Qed.

(** ** cache *)

Lemma live_ticks_cons (w : wake) (ws : list wake) :
  live_ticks (w :: ws) = (if tick_ready w then 1 else 0) + live_ticks ws.
Proof.
  unfold live_ticks. rewrite filter_cons.
  destruct (tick_ready w); simpl; reflexivity.
Qed.

Lemma refresh_count_cons (ev : cache_event) (evs : list cache_event) :
  refresh_count (ev :: evs)
  = (if is_refresh ev then 1 else 0) + refresh_count evs.
Proof.
  unfold refresh_count. rewrite filter_cons.
  destruct (is_refresh ev); simpl; reflexivity.
Qed.

Lemma pooling_loop_live (ws1 rest : list wake) :
  Forall (fun w => ctx_done w = false) ws1 ->
  pooling_loop (ws1 ++ rest)
  = replicate (live_ticks ws1) Refreshed ++ pooling_loop rest.
Proof.
  induction 1 as [|w ws1 Hw _ IH]; simpl.
  - reflexivity.
  - rewrite live_ticks_cons. unfold pooling_select. rewrite Hw.
    destruct (tick_ready w); simpl; rewrite IH; reflexivity.
Qed.

(** C9 (amended). The job runs once before the first wait and once for
    every tick received while the context is live; at the first wake-up
    that finds the context done and no tick pending, or at which the select
    takes the Done case, the goroutine returns, and whatever ticks follow no
    further refresh call is made. *)
Theorem pooling_stops_at_done (ws1 : list wake) (w : wake) (ws2 : list wake) :
  Forall (fun w => ctx_done w = false) ws1 ->
  ctx_done w = true ->
  tick_ready w = false \/ prefer_tick w = false ->
  pooling (ws1 ++ w :: ws2)
  = Refreshed :: replicate (live_ticks ws1) Refreshed ++ [Stopped] /\
  refresh_count (pooling (ws1 ++ w :: ws2)) = 1 + live_ticks ws1.
Proof.
  intros Hlive Hdone Hpick.
  assert (Hw : pooling_loop (w :: ws2) = [Stopped]).
  { simpl. unfold pooling_select. rewrite Hdone.
    destruct Hpick as [-> | ->]; [reflexivity|].
    destruct (tick_ready w); reflexivity. }
  assert (Hp : pooling (ws1 ++ w :: ws2)
               = Refreshed :: replicate (live_ticks ws1) Refreshed ++ [Stopped]).
  { unfold pooling. rewrite pooling_loop_live by exact Hlive.
    rewrite Hw. reflexivity. }
  split; [exact Hp|]. rewrite Hp. rewrite refresh_count_cons. simpl. f_equal.
  generalize (live_ticks ws1). intros n.
  induction n as [|n IH]; simpl.
  - reflexivity.
  - rewrite refresh_count_cons. simpl. f_equal. exact IH.
Qed.

Lemma pooling_stops_at_done_witness :
  pooling ([mkWake true false false; mkWake true false true]
           ++ mkWake false true false :: [mkWake true true true])
  = Refreshed
    :: replicate (live_ticks [mkWake true false false; mkWake true false true])
         Refreshed ++ [Stopped] /\
  refresh_count (pooling ([mkWake true false false; mkWake true false true]
                          ++ mkWake false true false :: [mkWake true true true]))
  = 1 + live_ticks [mkWake true false false; mkWake true false true].
Proof.
  apply (pooling_stops_at_done
           [mkWake true false false; mkWake true false true]
           (mkWake false true false) [mkWake true true true]).
  - repeat constructor.
  - reflexivity.
  - left. reflexivity.
Defined.

(** C9 as stated fails: a wake-up that finds a tick pending and the context
    done may take the tick case, and the job then runs although the
    cancellation was observable at that wait. *)
Lemma refresh_after_cancel :
  ~ (forall (w : wake) (ws : list wake),
       ctx_done w = true -> refresh_count (pooling_loop (w :: ws)) = 0).
Proof.
  intros H. specialize (H (mkWake true true true) [] eq_refl).
  vm_compute in H. discriminate H.
Qed.

(** ** Application *)

(** C7. Whenever Shutdown returns, the Shutdown methods it has called are,
    in order, those of the components the application holds, taken in the
    reverse of the order in which InitApplication constructs them; on the
    application that InitApplication builds these are the HTTP server, then
    the worker pool, then the cache, then the database (the controller,
    built between the pool and the server, has no Shutdown). *)
Theorem Shutdown_reverses_construction (app : Application) (log : list component) :
  App_Shutdown app = Ret log ->
  fst InitApplication
  = [DatabaseC; CacheC; WorkerPoolC; ControllerC; HttpServerC] /\
  log = rev (List.filter (present app) (fst InitApplication)) /\
  (app = snd InitApplication ->
   log = [HttpServerC; WorkerPoolC; CacheC; DatabaseC] /\
   log = rev (List.filter has_Shutdown (fst InitApplication))).
Proof.
  intros Hlog. split; [reflexivity|]. split.
  - revert Hlog. unfold App_Shutdown.
    destruct app as [[|] [|] [|] [|]]; simpl; try discriminate;
      intros [= <-]; reflexivity.
  - intros ->. simpl in Hlog. injection Hlog as <-. split; reflexivity.
Qed.

Lemma Shutdown_reverses_construction_witness :
  fst InitApplication
  = [DatabaseC; CacheC; WorkerPoolC; ControllerC; HttpServerC] /\
  [HttpServerC; WorkerPoolC; CacheC; DatabaseC]
  = rev (List.filter (present (snd InitApplication)) (fst InitApplication)) /\
  (snd InitApplication = snd InitApplication ->
   [HttpServerC; WorkerPoolC; CacheC; DatabaseC]
   = [HttpServerC; WorkerPoolC; CacheC; DatabaseC] /\
   [HttpServerC; WorkerPoolC; CacheC; DatabaseC]
   = rev (List.filter has_Shutdown (fst InitApplication))).
Proof.
  apply (Shutdown_reverses_construction (snd InitApplication)
           [HttpServerC; WorkerPoolC; CacheC; DatabaseC]).
  reflexivity.
Defined.

(** ** ConnPool *)

Section sums.
Context {A : Type}.
Implicit Types (f g : A -> nat) (l : list A).

Lemma sum_insert f l (i : nat) (x y : A) :
  l !! i = Some x ->
  sum_list_with f (<[i := y]> l) + f x = sum_list_with f l + f y.
Proof.
  revert i. induction l as [|a l IH]; intros [|i] H; simpl in *; try discriminate.
  - injection H as ->. lia.
  - specialize (IH i H). lia.
Qed.

Lemma sum_lookup_le f l (i : nat) (x : A) :
  l !! i = Some x -> f x <= sum_list_with f l.
Proof.
  revert i. induction l as [|a l IH]; intros [|i] H; simpl in *; try discriminate.
  - injection H as ->. lia.
  - specialize (IH i H). lia.
Qed.

Lemma sum_pointwise_le f g l :
  (forall x, f x <= g x) -> sum_list_with f l <= sum_list_with g l.
Proof.
  intros Hfg. induction l as [|a l IH]; simpl.
  - lia.
  - specialize (Hfg a). lia.
Qed.

Lemma sum_slack f g l (i : nat) (x : A) :
  (forall y, f y <= g y) ->
  l !! i = Some x ->
  sum_list_with f l + (g x - f x) <= sum_list_with g l.
Proof.
  intros Hfg. revert i.
  induction l as [|a l IH]; intros [|i] H; simpl in *; try discriminate.
  - injection H as ->. pose proof (sum_pointwise_le f g l Hfg).
    specialize (Hfg x). lia.
  - specialize (IH i H). specialize (Hfg a). lia.
Qed.
End sums.

Lemma has_conn_le_slot (c : exec_call) : has_conn c <= holds_slot c.
Proof. unfold has_conn, holds_slot. destruct (pc c); lia. Qed.

Lemma past_check_le_wg (c : exec_call) : past_check c <= in_wg c.
Proof. unfold past_check, in_wg. destruct (pc c); lia. Qed.

Lemma holds_conn_le_has (c : exec_call) : holds_conn c <= has_conn c.
Proof. unfold holds_conn, has_conn. destruct (pc c); lia. Qed.

Lemma cp_inv_init (d : bool) (cap : nat) : cp_inv (cp_init d cap).
Proof.
  split; simpl; try lia.
  - intros [H|[H|H]]; discriminate H.
  - intros [H|[H|H]]; discriminate H.
Qed.


Lemma close_conn_inv (k : option Conn) (s : cp_state) :
  cp_inv s -> cp_inv (close_conn k s).
Proof. intros [? ? ? ? ? ?]. destruct k; [split; assumption | split; assumption]. Qed.

Lemma Execute_step_inv (o : oracle) (i : nat) (s s' : cp_state) :
  cp_inv s -> Execute_step o i s = Some s' -> cp_inv s'.
Proof.
  intros [Hsema Hcap Hwg Hbound Hsd Hclosed]. unfold Execute_step.
  destruct (calls s !! i) as [c|] eqn:Hi; simpl; [|discriminate].
  destruct (Execute_stmt o c (cp s) (next_conn s)) as [[[[c' p'] next'] cl]|] eqn:Hl;
    simpl; [|discriminate].
  intros [= <-]. apply close_conn_inv.
  pose proof (fun y => sum_insert holds_slot (calls s) i c y Hi) as Eslot.
  pose proof (fun y => sum_insert in_wg (calls s) i c y Hi) as Ewg.
  pose proof (fun y => sum_insert has_conn (calls s) i c y Hi) as Econn.
  pose proof (fun y => sum_insert past_check (calls s) i c y Hi) as Epast.
  pose proof (sum_lookup_le past_check (calls s) i c Hi) as Lpast.
  pose proof (sum_lookup_le holds_slot (calls s) i c Hi) as Lslot.
  pose proof (sum_lookup_le in_wg (calls s) i c Hi) as Lwg.
  pose proof (sum_slack has_conn holds_slot (calls s) i c has_conn_le_slot Hi) as Lslack.
  specialize (Eslot c'). specialize (Ewg c'). specialize (Econn c').
  specialize (Epast c').
  unfold Execute_stmt in Hl. destruct c as [pc0 caller0 created0 invoked0].
  unfold goto, enter_fn, cp_IsShutdown, Get_select, recv_ready, recv_idle,
    Put_select in Hl. simpl in Hl.
  destruct (cp s) as [done0 cap0 sema0 wg0 idle0 closed0] eqn:Hcp. simpl in *.
  destruct pc0; simpl in *.
  all: repeat match type of Hl with
       | context [match ?x with _ => _ end] => is_var x; destruct x eqn:?
       | context [if ?b then _ else _] => destruct b eqn:?
       | context [match ?x with _ => _ end] => destruct x eqn:?
       end; try discriminate.
  all: injection Hl as <- <- <- <-.
  all: simpl in *.
  all: repeat match goal with
       | H : (_ <? _) = true |- _ => apply Nat.ltb_lt in H
       | H : (_ <? _) = false |- _ => apply Nat.ltb_ge in H
       end.
  all: split; simpl; rewrite ?Hcp; simpl; try lia.
  all: try (intros Hp; destruct (Hclosed Hp) as [? ?]; split; [congruence | lia]).
  all: try exact Hsd.
  all: try (exfalso; destruct Hclosed as [_ ?]; [solve [auto] | lia]).
  rewrite length_app. simpl. lia.
Qed.

Lemma Shutdown_step_inv (s s' : cp_state) :
  cp_inv s -> Shutdown_step s = Some s' -> cp_inv s'.
Proof.
  intros Hinv. unfold Shutdown_step, cp_IsShutdown.
  pose proof (sum_pointwise_le past_check in_wg (calls s) past_check_le_wg) as Hle.
  destruct (sd s) eqn:Hpc;
    repeat match goal with
      | |- context [if ?b then _ else _] => destruct b eqn:?
      | |- context [match ?x with _ => _ end] => destruct x eqn:?
      end; try discriminate. all: intros [= <-]; try exact Hinv.
  all: destruct Hinv as [Hsema Hcap Hwg Hbound Hsd Hclosed].
  all: rewrite Hpc in Hsd, Hclosed.
  all: repeat match goal with
       | H : (_ =? _) = true |- _ => apply Nat.eqb_eq in H
       end.
  all: split; simpl; auto.
  all: try (repeat match goal with
            | H : idleCons _ = _ |- _ => rewrite H in *
            end; simpl in *; lia).
  all: intros [H|[H|H]]; try discriminate H.
  all: try (split; [solve [auto] | first [lia | apply Hclosed; auto]]).
  apply Hclosed. auto.
Qed.

Lemma direct_Get_select_inv (e : option error) (o : oracle) (s s' : cp_state) :
  cp_inv s -> direct_Get_select e o s = Some s' -> cp_inv s'.
Proof.
  intros [Hsema Hcap Hwg Hbound Hsd Hclosed].
  unfold direct_Get_select, Get_select, recv_ready, recv_idle.
  destruct (getters s) as [|n]; [discriminate|]. simpl.
  destruct (cp s) as [done0 cap0 sema0 wg0 idle0 closed0] eqn:Hcp. simpl in *.
  repeat match goal with
    | |- context [match ?x with _ => _ end] => is_var x; destruct x eqn:?
    | |- context [if ?b then _ else _] => destruct b eqn:?
    | |- context [match ?x with _ => _ end] => destruct x eqn:?
    end; simpl; intros [= <-]; split; simpl; rewrite ?Hcp; simpl; auto;
    simpl in *; lia.
Qed.

Lemma cp_step_inv (a : cp_action) (s s' : cp_state) :
  gated a = true -> cp_inv s -> cp_step a s = Some s' -> cp_inv s'.
Proof.
  intros Hg Hinv. destruct a as [e|i e| |o i| | |e o|k|]; simpl;
    try discriminate Hg.
  - intros [= <-]. destruct Hinv as [Hsema Hcap Hwg Hbound Hsd Hclosed].
    split; simpl; rewrite ?sum_list_with_app; simpl; rewrite ?Nat.add_0_r; auto.
  - destruct (calls s !! i) as [c|] eqn:Hi; simpl; [|discriminate].
    intros [= <-]. destruct Hinv as [Hsema Hcap Hwg Hbound Hsd Hclosed].
    pose proof (sum_insert holds_slot (calls s) i c (caller_cancel e c) Hi).
    pose proof (sum_insert in_wg (calls s) i c (caller_cancel e c) Hi).
    pose proof (sum_insert has_conn (calls s) i c (caller_cancel e c) Hi).
    pose proof (sum_insert past_check (calls s) i c (caller_cancel e c) Hi).
    assert (holds_slot (caller_cancel e c) = holds_slot c) by reflexivity.
    assert (in_wg (caller_cancel e c) = in_wg c) by reflexivity.
    assert (has_conn (caller_cancel e c) = has_conn c) by reflexivity.
    assert (past_check (caller_cancel e c) = past_check c) by reflexivity.
    split; simpl; try lia; auto.
    intros Hp. destruct (Hclosed Hp). split; [assumption | lia].
  - intros [= <-]. destruct Hinv as [Hsema Hcap Hwg Hbound Hsd Hclosed].
    split; simpl; auto.
    intros Hp. split; [reflexivity | apply Hclosed, Hp].
  - apply Execute_step_inv, Hinv.
  - apply Shutdown_step_inv, Hinv.
  - intros [= <-]. unfold direct_Get_check.
    destruct (cp_IsShutdown (cp s)); [exact Hinv|].
    destruct Hinv as [? ? ? ? ? ?]. split; assumption.
  - apply direct_Get_select_inv, Hinv.
Qed.

Lemma Execute_stmt_cap (o : oracle) (c c' : exec_call) (p p' : ConnPool)
    (n n' : nat) (cl : option Conn) :
  Execute_stmt o c p n = Some (c', p', n', cl) -> cp_cap p' = cp_cap p.
Proof.
  unfold Execute_stmt, Get_select, recv_ready, recv_idle, Put_select, cp_IsShutdown.
  destruct p as [done0 cap0 sema0 wg0 idle0 closed0].
  destruct (pc c); simpl; intros Hl;
    repeat match type of Hl with
      | context [match ?x with _ => _ end] => is_var x; destruct x eqn:?
      | context [if ?b then _ else _] => destruct b eqn:?
      | context [match ?x with _ => _ end] => destruct x eqn:?
      end; try discriminate; injection Hl as <- <- <- <-; reflexivity.
Qed.

Lemma close_conn_cp (k : option Conn) (s : cp_state) : cp (close_conn k s) = cp s.
Proof. destruct k; reflexivity. Qed.

Lemma cp_step_cap (a : cp_action) (s s' : cp_state) :
  cp_step a s = Some s' -> cp_cap (cp s') = cp_cap (cp s).
Proof.
  destruct a as [e|i e| |o i| | |e o|k|]; simpl.
  - intros [= <-]. reflexivity.
  - destruct (calls s !! i); simpl; [|discriminate]. intros [= <-]. reflexivity.
  - intros [= <-]. reflexivity.
  - unfold Execute_step. destruct (calls s !! i) as [c|]; simpl; [|discriminate].
    destruct (Execute_stmt o c (cp s) (next_conn s)) as [[[[c' p'] n'] cl]|] eqn:Hl;
      simpl; [|discriminate].
    intros [= <-]. rewrite close_conn_cp. simpl. eapply Execute_stmt_cap, Hl.
  - unfold Shutdown_step. destruct (sd s); simpl;
      repeat match goal with
        | |- context [if ?b then _ else _] => destruct b eqn:?
        | |- context [match ?x with _ => _ end] => destruct x eqn:?
        end; try discriminate; intros [= <-]; reflexivity.
  - intros [= <-]. unfold direct_Get_check.
    destruct (cp_IsShutdown (cp s)); reflexivity.
  - unfold direct_Get_select, Get_select, recv_ready, recv_idle.
    destruct (getters s); [discriminate|]. simpl.
    repeat match goal with
      | |- context [if ?b then _ else _] => destruct b eqn:?
      | |- context [match ?x with _ => _ end] => destruct x eqn:?
      end; intros [= <-]; reflexivity.
  - intros [= <-]. unfold direct_Put_check.
    destruct (cp_IsShutdown (cp s)); reflexivity.
  - unfold direct_Put_select, Put_select.
    destruct (putters s); [discriminate|]. simpl.
    repeat match goal with
      | |- context [if ?b then _ else _] => destruct b eqn:?
      | |- context [match ?x with _ => _ end] => destruct x eqn:?
      end; intros [= <-]; reflexivity.
Qed.

Lemma cp_run_inv (acts : list cp_action) (s s' : cp_state) :
  forallb gated acts = true -> cp_inv s -> cp_run acts s = Some s' ->
  cp_inv s' /\ cp_cap (cp s') = cp_cap (cp s).
Proof.
  revert s. induction acts as [|a acts IH]; simpl; intros s Hg Hinv Hrun.
  - injection Hrun as <-. auto.
  - apply andb_true_iff in Hg as [Ha Hg].
    destruct (cp_step a s) as [s1|] eqn:Hs; simpl in Hrun; [|discriminate].
    destruct (IH s1 Hg (cp_step_inv a s s1 Ha Hinv Hs) Hrun) as [Hi Hc].
    split; [exact Hi|]. rewrite Hc. eapply cp_step_cap, Hs.
Qed.

(** C6 (amended). On a pool of capacity C on which Put is reached only
    through Execute, in every state reached by calls of Execute, of Shutdown
    and of Get (with cancellations of the callers' contexts and of the
    pool's parent context, in any interleaving), the connections in the
    hands of Execute callers plus the idle connections number at most C; so
    do the semaphore tokens, and so do the connections held or being made by
    the factory for Execute callers plus the idle ones. *)
Theorem pool_bound_through_Execute (d : bool) (cap : nat) (acts : list cp_action)
    (s : cp_state) :
  forallb gated acts = true ->
  cp_run acts (cp_init d cap) = Some s ->
  in_use s + idle_count s <= cap /\
  sema (cp s) <= cap /\
  sum_list_with has_conn (calls s) + idle_count s <= cap.
Proof.
  intros Hg Hrun.
  destruct (cp_run_inv acts (cp_init d cap) s Hg (cp_inv_init d cap) Hrun)
    as [[Hsema Hcap Hwg Hbound Hsd Hclosed] Hc].
  simpl in Hc. rewrite Hc in *.
  pose proof (sum_pointwise_le holds_conn has_conn (calls s) holds_conn_le_has).
  unfold in_use, idle_count. repeat split; lia.
Qed.

Lemma pool_bound_through_Execute_witness :
  in_use execute_and_get_end + idle_count execute_and_get_end <= 2 /\
  sema (cp execute_and_get_end) <= 2 /\
  sum_list_with has_conn (calls execute_and_get_end)
  + idle_count execute_and_get_end <= 2.
Proof.
  apply (pool_bound_through_Execute false 2 execute_and_get execute_and_get_end);
    vm_compute; reflexivity.
Defined.

(** The bound is tight: two calls of Execute on a pool of capacity 2 leave
    two idle connections. *)
Lemma two_calls_fill_the_cache :
  cp_run two_calls (cp_init false 2) = Some two_calls_end /\
  in_use two_calls_end = 0 /\ idle_count two_calls_end = 2.
Proof. split; [vm_compute; reflexivity|]. split; reflexivity. Qed.

(** C6 as stated fails when Put is a step of its own: on a pool of capacity
    1, while a call of Execute runs fn on the connection it was admitted
    for, another goroutine calls Get, which finds the idle cache empty and
    makes a second connection, and then Put, which stores it.  One
    connection is in use by an Execute caller and one is idle. *)
Lemma direct_Put_exceeds_capacity :
  cp_run direct_get_put (cp_init false 1) = Some direct_end /\
  cp_cap (cp direct_end) = 1 /\ in_use direct_end = 1 /\
  idle_count direct_end = 1 /\
  ~ (in_use direct_end + idle_count direct_end <= cp_cap (cp direct_end)).
Proof.
  split; [vm_compute; reflexivity|].
  repeat split; try reflexivity. vm_compute. lia.
Qed.

Lemma Execute_stmt_untouched (o : oracle) (c c' : exec_call) (p p' : ConnPool)
    (n n' : nat) (cl : option Conn) :
  untouched c -> Execute_stmt o c p n = Some (c', p', n', cl) -> untouched c'.
Proof.
  unfold Execute_stmt, Get_select, recv_ready, recv_idle, Put_select,
    cp_IsShutdown, untouched.
  destruct p as [done0 cap0 sema0 wg0 idle0 closed0].
  destruct c as [pc0 caller0 created0 invoked0].
  destruct pc0; simpl; intros Hu Hl;
    repeat match type of Hl with
      | context [match ?x with _ => _ end] => is_var x; destruct x eqn:?
      | context [if ?b then _ else _] => destruct b eqn:?
      | context [match ?x with _ => _ end] => destruct x eqn:?
      end; try discriminate; injection Hl as <- <- <- <-; simpl; auto.
Qed.

Lemma close_conn_calls (k : option Conn) (s : cp_state) :
  calls (close_conn k s) = calls s.
Proof. destruct k; reflexivity. Qed.

Lemma cp_step_untouched (a : cp_action) (s s' : cp_state) :
  Forall untouched (calls s) -> cp_step a s = Some s' ->
  Forall untouched (calls s').
Proof.
  intros Hall. destruct a as [e|i e| |o i| | |e o|k|]; simpl.
  - intros [= <-]. simpl. apply Forall_app. split; [exact Hall|].
    constructor; [|constructor]. unfold untouched. simpl. auto.
  - destruct (calls s !! i) as [c|] eqn:Hi; simpl; [|discriminate].
    intros [= <-]. simpl. apply Forall_insert; [exact Hall|].
    pose proof (Forall_lookup_1 _ _ _ _ Hall Hi) as Hc.
    unfold untouched, caller_cancel in *. simpl. exact Hc.
  - intros [= <-]. exact Hall.
  - unfold Execute_step. destruct (calls s !! i) as [c|] eqn:Hi; simpl; [|discriminate].
    destruct (Execute_stmt o c (cp s) (next_conn s)) as [[[[c' p'] n'] cl]|] eqn:Hl;
      simpl; [|discriminate].
    intros [= <-]. rewrite close_conn_calls. simpl.
    apply Forall_insert; [exact Hall|].
    eapply Execute_stmt_untouched; [|exact Hl].
    exact (Forall_lookup_1 _ _ _ _ Hall Hi).
  - unfold Shutdown_step. destruct (sd s); simpl;
      repeat match goal with
        | |- context [if ?b then _ else _] => destruct b eqn:?
        | |- context [match ?x with _ => _ end] => destruct x eqn:?
        end; try discriminate; intros [= <-]; exact Hall.
  - intros [= <-]. unfold direct_Get_check.
    destruct (cp_IsShutdown (cp s)); exact Hall.
  - unfold direct_Get_select.
    destruct (getters s); [discriminate|]. simpl.
    repeat match goal with
      | |- context [if ?b then _ else _] => destruct b eqn:?
      | |- context [match ?x with _ => _ end] => destruct x eqn:?
      end; intros [= <-]; exact Hall.
  - intros [= <-]. unfold direct_Put_check.
    destruct (cp_IsShutdown (cp s)); exact Hall.
  - unfold direct_Put_select.
    destruct (putters s); [discriminate|]. simpl.
    repeat match goal with
      | |- context [if ?b then _ else _] => destruct b eqn:?
      | |- context [match ?x with _ => _ end] => destruct x eqn:?
      end; intros [= <-]; rewrite ?close_conn_calls; exact Hall.
Qed.

Lemma cp_run_untouched (acts : list cp_action) (s s' : cp_state) :
  Forall untouched (calls s) -> cp_run acts s = Some s' ->
  Forall untouched (calls s').
Proof.
  revert s. induction acts as [|a acts IH]; simpl; intros s Hall Hrun.
  - injection Hrun as <-. exact Hall.
  - destruct (cp_step a s) as [s1|] eqn:Hs; simpl in Hrun; [|discriminate].
    eapply IH; [|exact Hrun]. eapply cp_step_untouched; eauto.
Qed.

(** C5 (amended). In any state the pool can reach, a call of Execute that
    stands at the select on the semaphore moves in exactly two ways, and the
    pool's own context plays no part: it takes a slot when the semaphore has
    room, or it returns the error of the caller's context when that context
    is done; with both ready the select picks either, and with neither the
    call blocks, whether or not the pool is shut down.  When it returns the
    caller's error the pool is left as it was, no connection has been made
    or closed by the call and fn has not been invoked. *)
Theorem Execute_admission (d : bool) (cap : nat) (acts : list cp_action)
    (s : cp_state) (o : oracle) (i : nat) (c : exec_call) :
  cp_run acts (cp_init d cap) = Some s ->
  calls s !! i = Some c ->
  pc c = ESema ->
  match Execute_step o i s with
  | None => caller c = None /\ cp_cap (cp s) <= sema (cp s)
  | Some s' =>
      next_conn s' = next_conn s /\ closedConns s' = closedConns s /\
      exists c', calls s' !! i = Some c' /\ created c' = 0 /\ invoked c' = 0 /\
        ((pc c' = EAdd /\ sema (cp s) < cp_cap (cp s) /\
          cp s' = set_sema (S (sema (cp s))) (cp s)) \/
         (exists e, caller c = Some e /\ pc c' = EReturned (Ret (Some e)) /\
            cp s' = cp s))
  end.
Proof.
  intros Hrun Hi Hpc.
  assert (Hu : untouched c).
  { eapply Forall_lookup_1; [|exact Hi].
    eapply cp_run_untouched; [|exact Hrun]. constructor. }
  unfold untouched in Hu. rewrite Hpc in Hu. destruct Hu as [Hcr Hin].
  pose proof (lookup_lt_Some _ _ _ Hi) as Hlt.
  unfold Execute_step. rewrite Hi. simpl. unfold Execute_stmt. rewrite Hpc.
  destruct (caller c) as [e|] eqn:Hc;
    destruct (Nat.ltb_spec (sema (cp s)) (cp_cap (cp s))) as [Hroom|Hfull];
    try destruct (prefer_done o); simpl.
  all: try (split; [reflexivity|]; split; [reflexivity|];
            eexists; split; [apply list_lookup_insert_eq, Hlt|];
            split; [exact Hcr|]; split; [exact Hin|]; simpl;
            first [left; split; [reflexivity|]; split; [exact Hroom|reflexivity]
                  |right; eexists; split; [reflexivity|]; split; reflexivity]).
  all: split; [reflexivity | exact Hfull].
Qed.

Lemma Execute_admission_witness :
  match Execute_step hasty 1 held_end with
  | None => caller (mkCall ESema None 0 0) = None /\
            cp_cap (cp held_end) <= sema (cp held_end)
  | Some s' =>
      next_conn s' = next_conn held_end /\
      closedConns s' = closedConns held_end /\
      exists c', calls s' !! 1 = Some c' /\ created c' = 0 /\ invoked c' = 0 /\
        ((pc c' = EAdd /\ sema (cp held_end) < cp_cap (cp held_end) /\
          cp s' = set_sema (S (sema (cp held_end))) (cp held_end)) \/
         (exists e, caller (mkCall ESema None 0 0) = Some e /\
            pc c' = EReturned (Ret (Some e)) /\ cp s' = cp held_end))
  end.
Proof.
  apply (Execute_admission false 1 held_then_shutdown held_end hasty 1
           (mkCall ESema None 0 0));
    vm_compute; reflexivity.
Defined.

(** A pool found shut down at entry, or after admission in Get, makes
    Execute return the "already shutdown" error; the factory is not called
    on either path. *)
Lemma Execute_on_shutdown_pool (o : oracle) (i : nat) (c : exec_call) (s : cp_state) :
  calls s !! i = Some c ->
  cp_done (cp s) = true ->
  (pc c = EStart ->
   exists s', Execute_step o i s = Some s' /\ next_conn s' = next_conn s /\
     a_call_returned i s' = Some (Ret (Some ErrAlreadyShutdown))) /\
  (pc c = EGetCheck ->
   exists s', Execute_step o i s = Some s' /\ next_conn s' = next_conn s /\
     calls s' !! i = Some (goto (EWgDone (Ret (Some ErrAlreadyShutdown))) c)).
Proof.
  intros Hi Hd. pose proof (lookup_lt_Some _ _ _ Hi) as Hlt.
  split; intros Hpc; unfold Execute_step; rewrite Hi; simpl;
    unfold Execute_stmt, cp_IsShutdown; rewrite Hpc, Hd; simpl;
    eexists; (split; [reflexivity|]); (split; [reflexivity|]); simpl.
  - unfold a_call_returned. simpl.
    rewrite list_lookup_insert_eq by exact Hlt. reflexivity.
  - apply list_lookup_insert_eq, Hlt.
Qed.

(** C5 as stated fails for the pool's own token: on a pool of capacity 1
    whose slot is held by a call running fn, a second call waits at the
    semaphore with a live context; after Shutdown has cancelled the pool's
    context the second call still cannot move, whatever the scheduler and
    the environment decide. *)
Lemma Execute_ignores_pool_token :
  cp_run held_then_shutdown (cp_init false 1) = Some held_end /\
  cp_done (cp held_end) = true /\
  calls held_end !! 1 = Some (mkCall ESema None 0 0) /\
  (forall o, Execute_step o 1 held_end = None) /\
  a_call_returned 1 held_end = None.
Proof.
  split; [vm_compute; reflexivity|]. repeat split; reflexivity.
Qed.

(** ** Further properties of the worker pool *)

Section WorkerPool_more.
Context {R : Type} `{!Zero R}.
Implicit Types (s : system R) (f : Future R).

Lemma wp_inv_alloc f s : wp_inv s -> wp_inv (snd (alloc f s)).
Proof.
  intros [Hb Hv Hf]. split; simpl; auto.
  rewrite length_app. simpl.
  eapply Forall_impl; [exact Hv|]. simpl. intros p Hp. lia.
Qed.

Lemma wp_inv_Submit (c : ctx R) (task : Task R) s :
  wp_inv s -> wp_inv (snd (Submit c task s)).
Proof.
  intros Hinv. unfold Submit.
  destruct (IsShutdown (pool s)); [apply wp_inv_alloc, Hinv|].
  simpl.
  destruct (Z.ltb_spec (Z.of_nat (length (taskQueue (pool s)))) (wp_cap (pool s)))
    as [Hroom|Hfull].
  - destruct Hinv as [Hb Hv Hf]. split; simpl.
    + rewrite length_app. simpl. lia.
    + apply Forall_app. split.
      * eapply Forall_impl; [exact Hv|]. simpl. intros p Hp.
        rewrite length_app. simpl. lia.
      * constructor; [|constructor]. rewrite length_app. simpl. lia.
    + intros i j p q Hi Hj Hij.
      assert (Hjl : j < length (taskQueue (pool s) ++ [length (heap s)])).
      { eapply lookup_lt_Some, Hj. }
      rewrite length_app in Hjl. simpl in Hjl.
      rewrite lookup_app_l in Hi by lia.
      destruct (decide (j < length (taskQueue (pool s)))) as [Hlt|Hge].
      * rewrite lookup_app_l in Hj by exact Hlt. eapply Hf; eauto.
      * rewrite lookup_app_r in Hj by lia.
        replace (j - length (taskQueue (pool s))) with 0 in Hj by lia.
        injection Hj as <-.
        exact (proj1 (Forall_lookup _ _) Hv i p Hi).
  - apply (wp_inv_alloc _ (snd (alloc (NewFuture c task) s))).
    apply wp_inv_alloc, Hinv.
Qed.

Lemma wp_inv_Shutdown_pool s : wp_inv s -> wp_inv (Shutdown_pool s).
Proof.
  intros Hinv. unfold Shutdown_pool. destruct (IsShutdown (pool s)); [exact Hinv|].
  destruct Hinv as [Hb Hv Hf]. split; simpl; auto.
Qed.

Lemma wp_inv_set_worker i pc s : wp_inv s -> wp_inv (set_worker i pc s).
Proof. intros [Hb Hv Hf]. split; simpl; auto. Qed.

Lemma wp_inv_take_and_run i p rest s :
  wp_inv s -> taskQueue (pool s) = p :: rest -> wp_inv (take_and_run i p rest s).
Proof.
  intros [Hb Hv Hf] Hq. rewrite Hq in Hb, Hv, Hf. simpl in Hb.
  apply Forall_cons in Hv as [Hp Hv].
  unfold take_and_run.
  destruct (heap s !! p) as [f|] eqn:Hh.
  - destruct (Run_returns f) as (f' & -> & _).
    split; simpl.
    + lia.
    + rewrite length_insert. exact Hv.
    + intros a b x y Ha Hb' Hab. apply (Hf (S a) (S b) x y); simpl; auto. lia.
  - apply lookup_ge_None in Hh. lia.
Qed.

Lemma wp_inv_worker_step (b : bool) (i : nat) s s' :
  wp_inv s -> worker_step b i s = Some s' -> wp_inv s'.
Proof.
  intros Hinv. unfold worker_step.
  destruct (workers s !! i) as [[| |]|]; try discriminate.
  - destruct (IsShutdown (pool s)); intros [= <-]; apply wp_inv_set_worker, Hinv.
  - destruct (taskQueue (pool s)) as [|p rest] eqn:Hq;
      destruct (IsShutdown (pool s)); try discriminate.
    + intros [= <-]. apply wp_inv_set_worker, Hinv.
    + destruct b; intros [= <-].
      * apply wp_inv_take_and_run; assumption.
      * apply wp_inv_set_worker, Hinv.
    + intros [= <-]. apply wp_inv_take_and_run; assumption.
Qed.

Lemma wp_inv_step (a : wp_action R) s s' :
  wp_inv s -> wp_step a s = Some s' -> wp_inv s'.
Proof.
  intros Hinv. destruct a as [c task| |b i]; simpl.
  - intros [= <-]. apply wp_inv_Submit, Hinv.
  - intros [= <-]. apply wp_inv_Shutdown_pool, Hinv.
  - apply wp_inv_worker_step, Hinv.
Qed.

(** No action changes the size of the pool or the capacity of its queue. *)
Lemma wp_step_size (a : wp_action R) s s' :
  wp_step a s = Some s' ->
  wp_size (pool s') = wp_size (pool s) /\ wp_cap (pool s') = wp_cap (pool s).
Proof.
  destruct a as [c task| |b i]; simpl.
  - intros [= <-]. unfold Submit. destruct (IsShutdown (pool s)); simpl; auto.
    destruct (Z.of_nat (length (taskQueue (pool s))) <? wp_cap (pool s))%Z;
      simpl; auto.
  - intros [= <-]. unfold Shutdown_pool. destruct (IsShutdown (pool s)); simpl; auto.
  - unfold worker_step.
    destruct (workers s !! i) as [[| |]|]; try discriminate.
    + destruct (IsShutdown (pool s)); intros [= <-]; simpl; auto.
    + unfold take_and_run.
      destruct (taskQueue (pool s)) as [|p rest];
        destruct (IsShutdown (pool s)); try discriminate; try destruct b;
        intros [= <-]; simpl; auto;
        destruct (heap s !! p) as [f|]; simpl; auto;
        destruct (Run f); simpl; auto.
Qed.

Lemma wp_run_inv (acts : list (wp_action R)) s s' :
  wp_inv s -> wp_run acts s = Some s' ->
  wp_inv s' /\ wp_size (pool s') = wp_size (pool s) /\
  wp_cap (pool s') = wp_cap (pool s).
Proof.
  revert s. induction acts as [|a acts IH]; simpl; intros s Hinv Hrun.
  - injection Hrun as <-. auto.
  - destruct (wp_step a s) as [s1|] eqn:Hs; simpl in Hrun; [|discriminate].
    destruct (IH s1 (wp_inv_step a s s1 Hinv Hs) Hrun) as (Hi & Hsz & Hcap).
    destruct (wp_step_size a s s1 Hs) as [Hsz1 Hcap1].
    split; [exact Hi|]. split; congruence.
Qed.

Lemma NewWorkerPool_shape (c : ctx R) (size : Z) s0 :
  (- 2 ^ 63 <= size < 2 ^ 63)%Z ->
  NewWorkerPool c size = Ret s0 ->
  wp_inv s0 /\ wp_cap (pool s0) = (2 * wp_size (pool s0))%Z /\
  (1 <= wp_size (pool s0))%Z.
Proof.
  intros Hr. unfold NewWorkerPool.
  set (n := if (size <=? 0)%Z then 1%Z else size).
  assert (Hn : (1 <= n < 2 ^ 63)%Z).
  { subst n. destruct (Z.leb_spec size 0); lia. }
  destruct (Z.ltb_spec (wrap_int (n * 2)) 0) as [Hneg|Hpos]; [discriminate|].
  intros [= <-]. simpl.
  assert (Hlt : (n * 2 < 2 ^ 63)%Z).
  { destruct (Z.lt_ge_cases (n * 2) (2 ^ 63)) as [|Hge]; [assumption|].
    assert (wrap_int (n * 2) < 0)%Z by (apply wrap_int_high; lia). lia. }
  rewrite wrap_int_small by lia.
  split; [|lia]. split; simpl.
  - lia.
  - constructor.
  - intros i j p q Hi. discriminate Hi.
Qed.


Lemma submit_then_step (c : ctx R) (task : Task R) (b : bool) (i : nat) s :
  IsShutdown (pool s) = false ->
  taskQueue (pool s) = [] ->
  (0 < wp_cap (pool s))%Z ->
  workers s !! i = Some WSelect ->
  exists s2 f,
    worker_step b i (snd (Submit c task s)) = Some s2 /\
    heap s2 !! fst (Submit c task s) = Some f /\
    Get f = match Get (NewFuture c task) with
            | Some r => Some r
            | None => Some (match task None with
                            | Ret r => r
                            | Panic v => (zero, Some (ErrTaskPanicked v))
                            end)
            end /\
    taskQueue (pool s2) = [] /\
    workers s2 !! i = Some WCheck /\
    crashed s2 = crashed s.
Proof.
  intros Hsd Hq Hcap Hi. unfold Submit. rewrite Hsd.
  remember (NewFuture c task) as f0 eqn:Hf0.
  simpl. rewrite Hq. simpl.
  assert (Hltb : (Z.of_nat 0 <? wp_cap (pool s))%Z = true)
    by (apply Z.ltb_lt; simpl; lia).
  rewrite Hltb. simpl.
  set (s1 := enqueue (length (heap s)) (snd (alloc f0 s))).
  assert (Hh : heap s1 !! length (heap s) = Some f0).
  { subst s1. simpl. rewrite lookup_app_r by lia.
    rewrite Nat.sub_diag. reflexivity. }
  destruct (worker_runs_oldest b i (length (heap s)) [] s1 f0)
    as (s2 & f' & Hstep & Hrun & Hh2 & Hd & Hq2 & Hw & Hc); auto.
  { subst s1. simpl. rewrite Hq. reflexivity. }
  exists s2, f'. split; [exact Hstep|]. split; [exact Hh2|].
  split; [|split; [exact Hq2|split; [exact Hw|exact Hc]]].
  destruct (IsDone f0) eqn:Hdone.
  - rewrite Run_done in Hrun by exact Hdone. injection Hrun as <-.
    destruct (Get_done _ Hdone) as [r ->]. reflexivity.
  - destruct (Run_pending _ Hdone) as (f2 & Hr2 & Hg2).
    rewrite Hrun in Hr2. injection Hr2 as <-.
    rewrite Hg2. apply IsDone_false_ctx in Hdone.
    unfold Get at 1. rewrite Hdone. simpl.
    rewrite Hf0. reflexivity.
Qed.


End WorkerPool_more.

(** ** The worker pool, one statement at a time *)

Section WorkerPool_stmts_facts.
Context {R : Type} `{!Zero R}.
Implicit Types (s : pool_state R) (f : Future R).

Lemma Run_body_returns f : exists f', Run_body f = Ret f' /\ IsDone f' = true.
Proof.
  unfold Run_body. destruct (invoke_returns f) as ([r e] & f' & ->). simpl.
  eexists. split; [reflexivity | apply callback_IsDone].
Qed.

Lemma IsShutdown_cancel (c : ctx R) (cs : cause R) :
  is_Some (Err c) -> cancel cs c = c.
Proof. destruct c; [reflexivity|]. intros [x Hx]. discriminate Hx. Qed.

Lemma IsShutdown_parentDone (c : ctx R) (e : error) (cs : cause R) :
  is_Some (Err c) -> parentDone e cs c = c.
Proof. destruct c; [reflexivity|]. intros [x Hx]. discriminate Hx. Qed.

Lemma IsShutdown_true (wp : workerPool R) :
  IsShutdown wp = true -> is_Some (Err (wp_ctx wp)).
Proof. unfold IsShutdown. intros Hsd. apply bool_decide_eq_true in Hsd. exact Hsd. Qed.

Lemma insert_keeps_select (l : list (subpc R)) (k k' : nat) (sp : subpc R)
    (c : ctx R) (p : nat) :
  at_select sp = 0 ->
  <[k := sp]> l !! k' = Some (SubSelect c p) -> l !! k' = Some (SubSelect c p).
Proof.
  intros Hsp Hl. apply list_lookup_insert_Some in Hl as [(-> & -> & _)|[_ Hl]].
  - discriminate Hsp.
  - exact Hl.
Qed.

(** One step on a pool that is shut down: the context stays, no call
    reaches the [select], and the queue takes only futures that calls at the
    [select] held. *)
Lemma shut_down_step (a : ps_action R) s s1 :
  IsShutdown (ps_pool s) = true ->
  ps_step a s = Some s1 ->
  wp_ctx (ps_pool s1) = wp_ctx (ps_pool s) /\
  (forall k c p, submits s1 !! k = Some (SubSelect c p) ->
                 submits s !! k = Some (SubSelect c p)) /\
  (forall p, p ∈ taskQueue (ps_pool s1) ->
             p ∈ taskQueue (ps_pool s) \/
             exists k c, submits s !! k = Some (SubSelect c p)) /\
  length (taskQueue (ps_pool s1)) + sum_list_with at_select (submits s1)
  <= length (taskQueue (ps_pool s)) + sum_list_with at_select (submits s).
Proof.
  intros Hsd Hstep.
  pose proof (IsShutdown_true _ Hsd) as Herr.
  destruct a as [c task|k| |k|b i|i|e cs|p|p e cs]; simpl in Hstep.
  - injection Hstep as <-. simpl. split; [reflexivity|]. split; [|split].
    + intros k c0 p Hl. apply lookup_app_Some in Hl as [Hl|[_ Hl]]; [exact Hl|].
      destruct (k - length (submits s)) as [|n]; simpl in Hl; [|discriminate Hl].
      discriminate Hl.
    + auto.
    + rewrite sum_list_with_app. simpl. lia.
  - unfold Submit_stmt in Hstep.
    destruct (submits s !! k) as [[c task|c p|p]|] eqn:Hk; try discriminate Hstep.
    + rewrite Hsd in Hstep. injection Hstep as <-. simpl.
      split; [reflexivity|]. split; [|split].
      * intros k' c0 p. apply insert_keeps_select. reflexivity.
      * auto.
      * pose proof (sum_insert at_select (submits s) k _
                      (SubReturned (length (ps_heap s))) Hk) as Hs.
        simpl in Hs. lia.
    + destruct (Z.of_nat (length (taskQueue (ps_pool s))) <? wp_cap (ps_pool s))%Z;
        injection Hstep as <-; simpl.
      * split; [reflexivity|]. split; [|split].
        -- intros k' c0 p0. apply insert_keeps_select. reflexivity.
        -- intros p0 Hp. apply elem_of_app in Hp as [Hp|Hp]; [auto|].
           apply list_elem_of_singleton in Hp as ->. right. eauto.
        -- pose proof (sum_insert at_select (submits s) k _ (SubReturned p) Hk) as Hs.
           simpl in Hs. rewrite length_app. simpl. lia.
      * split; [reflexivity|]. split; [|split].
        -- intros k' c0 p0. apply insert_keeps_select. reflexivity.
        -- auto.
        -- pose proof (sum_insert at_select (submits s) k _
                         (SubReturned (length (ps_heap s))) Hk) as Hs.
           simpl in Hs. lia.
  - injection Hstep as <-. simpl. auto.
  - unfold Shutdown_stmt in Hstep.
    destruct (shutdowns s !! k) as [[| | |]|]; try discriminate Hstep.
    + rewrite Hsd in Hstep. injection Hstep as <-. simpl. auto.
    + injection Hstep as <-. simpl.
      rewrite IsShutdown_cancel by exact Herr. auto.
    + destruct (workerWaitGroup s); [|discriminate Hstep].
      injection Hstep as <-. simpl. auto.
  - unfold worker_stmt in Hstep.
    destruct (goroutines s !! i) as [[| | |p|p| |]|]; try discriminate Hstep.
    + injection Hstep as <-. simpl. auto.
    + rewrite Hsd in Hstep. injection Hstep as <-. simpl. auto.
    + rewrite Hsd in Hstep.
      destruct (taskQueue (ps_pool s)) as [|p rest] eqn:Hq.
      * injection Hstep as <-. simpl. rewrite Hq. auto.
      * destruct b; injection Hstep as <-; simpl.
        -- split; [reflexivity|]. split; [auto|]. split; [|lia].
           intros p0 Hp. left. apply elem_of_cons. auto.
        -- rewrite Hq. auto.
    + destruct (ps_heap s !! p) as [f|]; [|discriminate Hstep]. simpl in Hstep.
      destruct (IsDone f); injection Hstep as <-; simpl; auto.
    + destruct (workerWaitGroup s); injection Hstep as <-; simpl; auto.
  - unfold task_returns in Hstep.
    destruct (goroutines s !! i) as [[| | |p|p| |]|]; try discriminate Hstep.
    destruct (ps_heap s !! p) as [f|]; [|discriminate Hstep]. simpl in Hstep.
    destruct (Run_body f); injection Hstep as <-; simpl; auto.
  - injection Hstep as <-. simpl.
    rewrite IsShutdown_parentDone by exact Herr. auto.
  - unfold on_future in Hstep.
    destruct (ps_heap s !! p) as [f|]; [|discriminate Hstep].
    injection Hstep as <-. simpl. auto.
  - unfold on_future in Hstep.
    destruct (ps_heap s !! p) as [f|]; [|discriminate Hstep].
    injection Hstep as <-. simpl. auto.
Qed.

(** X3. Once the pool's context is done, only calls of Submit already in
    flight can still queue.  Whatever follows (statements of Submit,
    Shutdown and of the workers, tasks returning, cancellations), the pool
    keeps the same done context; no call of Submit reaches the select any
    more, so the queue takes only futures held by calls that had passed the
    test of IsShutdown before, and its length plus the number of such calls
    never grows; a call of Submit that takes its first statement now returns
    the "worker pool is shutdown" future and leaves the queue alone, and a
    call of Shutdown returns at its test. *)
Theorem shutdown_admits_only_calls_in_flight (acts : list (ps_action R)) s s' :
  IsShutdown (ps_pool s) = true ->
  ps_run acts s = Some s' ->
  IsShutdown (ps_pool s') = true /\
  wp_ctx (ps_pool s') = wp_ctx (ps_pool s) /\
  (forall k c p, submits s' !! k = Some (SubSelect c p) ->
                 submits s !! k = Some (SubSelect c p)) /\
  (forall p, p ∈ taskQueue (ps_pool s') ->
             p ∈ taskQueue (ps_pool s) \/
             exists k c, submits s !! k = Some (SubSelect c p)) /\
  length (taskQueue (ps_pool s')) + sum_list_with at_select (submits s')
  <= length (taskQueue (ps_pool s)) + sum_list_with at_select (submits s) /\
  (forall k c task, submits s' !! k = Some (SubCheck c task) ->
     exists s2 p,
       Submit_stmt k s' = Some s2 /\
       submits s2 !! k = Some (SubReturned p) /\
       ps_heap s2 !! p
       = Some (NewFuture c (fun _ => Ret (zero, Some ErrWorkerPoolShutdown))) /\
       ps_pool s2 = ps_pool s') /\
  (forall k, shutdowns s' !! k = Some ShCheck ->
     Shutdown_stmt k s' = Some (goto_sh k ShReturned s')).
Proof.
  revert s. induction acts as [|a acts IH]; simpl; intros s Hsd Hrun.
  - injection Hrun as <-. split; [exact Hsd|]. split; [reflexivity|].
    split; [auto|]. split; [auto|]. split; [lia|]. split.
    + intros k c task Hk. unfold Submit_stmt. rewrite Hk, Hsd. simpl.
      eexists _, _. split; [reflexivity|]. simpl.
      split; [|split; [|reflexivity]].
      * apply list_lookup_insert_eq. eapply lookup_lt_Some, Hk.
      * rewrite lookup_app_r by lia. rewrite Nat.sub_diag. reflexivity.
    + intros k Hk. unfold Shutdown_stmt. rewrite Hk, Hsd. reflexivity.
  - destruct (ps_step a s) as [s1|] eqn:Hs; simpl in Hrun; [|discriminate].
    destruct (shut_down_step a s s1 Hsd Hs) as (Hctx & Hsel & Hq & Hm).
    assert (Hsd1 : IsShutdown (ps_pool s1) = true).
    { unfold IsShutdown in *. rewrite Hctx. exact Hsd. }
    destruct (IH s1 Hsd1 Hrun) as (Hsd' & Hctx' & Hsel' & Hq' & Hm' & Hsub & Hsh).
    split; [exact Hsd'|]. split; [congruence|]. split; [auto|].
    split; [|split; [lia|split; [exact Hsub|exact Hsh]]].
    intros p Hp. destruct (Hq' p Hp) as [Hp1|(k & c & Hk)].
    + apply Hq, Hp1.
    + right. exists k, c. apply Hsel, Hk.
Qed.

Lemma sum_zero_Forall {A : Type} (g : A -> nat) (l : list A) :
  sum_list_with g l = 0 <-> Forall (fun x => g x = 0) l.
Proof.
  induction l as [|x l IH]; simpl.
  - split; [constructor | reflexivity].
  - split.
    + intros Hs. constructor; [lia|]. apply IH. lia.
    + intros Hf. apply Forall_cons in Hf as [Hx Hl]. apply IH in Hl. lia.
Qed.

Lemma ps_inv_spawned (c : ctx R) (size : Z) (s0 : system R) :
  NewWorkerPool c size = Ret s0 -> ps_inv (spawned s0).
Proof.
  unfold NewWorkerPool.
  destruct (wrap_int ((if (size <=? 0)%Z then 1%Z else size) * 2) <? 0)%Z;
    [discriminate|].
  intros [= <-]. split; simpl; try constructor;
    induction (Z.to_nat (if (size <=? 0)%Z then 1%Z else size)) as [|n IH];
    simpl; try reflexivity; try exact IH; constructor; auto.
Qed.

Lemma ps_inv_alloc f s :
  ps_inv s -> ps_inv (snd (ps_alloc f s)).
Proof.
  intros [Hc Hq Hg Hs Hok]. split; simpl; auto.
  - eapply Forall_impl; [exact Hq|]. simpl. intros p Hp.
    rewrite length_app. simpl. lia.
  - eapply Forall_impl; [exact Hg|]. simpl. intros [| | |p|p| |]; auto;
      rewrite length_app; simpl; lia.
  - eapply Forall_impl; [exact Hs|]. simpl. intros [c task|c p|p]; auto.
    rewrite length_app. simpl. lia.
Qed.

Lemma ps_inv_goto_sub (k : nat) (sp : subpc R) s :
  ps_inv s ->
  match sp with SubSelect _ p => p < length (ps_heap s) | _ => True end ->
  ps_inv (goto_sub k sp s).
Proof.
  intros [Hc Hq Hg Hs Hok] Hsp. split; simpl; auto.
  apply Forall_insert; assumption.
Qed.

Lemma ps_inv_heap (h : list (Future R)) s :
  ps_inv s -> length h = length (ps_heap s) -> ps_inv (ps_with_heap h s).
Proof.
  intros [Hc Hq Hg Hs Hok] Hl. split; simpl; auto; rewrite Hl; assumption.
Qed.

(** A worker that moves from [g] to [g'] at a counter going from [n] to
    [n']. *)
Lemma ps_inv_goto_g (i : nat) (g g' : gpc) (n' : nat) s :
  ps_inv s ->
  goroutines s !! i = Some g ->
  n' + registered g = workerWaitGroup s + registered g' ->
  match g' with GRun p | GTask p => p < length (ps_heap s) | _ => True end ->
  ps_inv (goto_g i g' (ps_with_wg n' s)).
Proof.
  intros [Hc Hq Hg Hs Hok] Hi Hn Hv. split; simpl; auto.
  - pose proof (sum_insert registered (goroutines s) i g g' Hi). lia.
  - apply Forall_insert; assumption.
Qed.

Lemma ps_with_wg_same s : ps_with_wg (workerWaitGroup s) s = s.
Proof. destruct s. reflexivity. Qed.

Lemma ps_inv_goto_g_same (i : nat) (g g' : gpc) s :
  ps_inv s ->
  goroutines s !! i = Some g ->
  registered g = registered g' ->
  match g' with GRun p | GTask p => p < length (ps_heap s) | _ => True end ->
  ps_inv (goto_g i g' s).
Proof.
  intros Hinv Hi Hr Hv. rewrite <- (ps_with_wg_same s) at 1.
  eapply ps_inv_goto_g; [exact Hinv | exact Hi | simpl; lia | exact Hv].
Qed.

Lemma ps_step_inv (a : ps_action R) s s1 :
  ps_inv s -> ps_step a s = Some s1 -> ps_inv s1.
Proof.
  intros Hinv Hstep.
  destruct a as [c task|k| |k|b i|i|e cs|p|p e cs]; simpl in Hstep.
  - injection Hstep as <-. destruct Hinv as [Hc Hq Hg Hs Hok].
    split; simpl; auto. apply Forall_app. split; [exact Hs|].
    constructor; [exact I | constructor].
  - unfold Submit_stmt in Hstep.
    destruct (submits s !! k) as [[c task|c p|p]|] eqn:Hk; try discriminate Hstep.
    + destruct (IsShutdown (ps_pool s)); injection Hstep as <-.
      * apply (ps_inv_goto_sub k (SubReturned _)); [|exact I].
        apply (ps_inv_alloc _ s), Hinv.
      * apply (ps_inv_goto_sub k (SubSelect c _)).
        -- apply (ps_inv_alloc _ s), Hinv.
        -- simpl. rewrite length_app. simpl. lia.
    + assert (Hp : p < length (ps_heap s)).
      { destruct Hinv as [_ _ _ Hs _].
        exact (proj1 (Forall_lookup _ _) Hs k _ Hk). }
      destruct (Z.of_nat (length (taskQueue (ps_pool s))) <? wp_cap (ps_pool s))%Z;
        injection Hstep as <-.
      * apply (ps_inv_goto_sub k (SubReturned _)); [|exact I].
        destruct Hinv as [Hc Hq Hg Hs Hok]. split; simpl; auto.
        apply Forall_app. split; [exact Hq|]. constructor; [exact Hp|constructor].
      * apply (ps_inv_goto_sub k (SubReturned _)); [|exact I].
        apply (ps_inv_alloc _ s), Hinv.
  - injection Hstep as <-. destruct Hinv as [Hc Hq Hg Hs Hok].
    split; simpl; auto.
  - unfold Shutdown_stmt in Hstep.
    destruct (shutdowns s !! k) as [[| | |]|]; try discriminate Hstep.
    + destruct (IsShutdown (ps_pool s)); injection Hstep as <-;
        destruct Hinv as [Hc Hq Hg Hs Hok]; split; simpl; auto.
    + injection Hstep as <-. destruct Hinv as [Hc Hq Hg Hs Hok].
      split; simpl; auto.
    + destruct (workerWaitGroup s); [|discriminate Hstep].
      injection Hstep as <-. destruct Hinv as [Hc Hq Hg Hs Hok].
      split; simpl; auto.
  - unfold worker_stmt in Hstep.
    destruct (goroutines s !! i) as [[| | |p|p| |]|] eqn:Hi; try discriminate Hstep.
    + injection Hstep as <-. eapply ps_inv_goto_g; eauto; simpl; lia.
    + destruct (IsShutdown (ps_pool s)); injection Hstep as <-;
        eapply ps_inv_goto_g_same; eauto.
    + assert (Hdone : ps_inv (goto_g i GDone s))
        by (eapply ps_inv_goto_g_same; eauto).
      assert (Hrecv : forall p rest, taskQueue (ps_pool s) = p :: rest ->
                        ps_inv (receive i p rest s)).
      { intros p rest Hq'. destruct Hinv as [Hc Hq Hg Hs Hok].
        rewrite Hq' in Hq. apply Forall_cons in Hq as [Hp Hq].
        split; simpl; auto.
        - pose proof (sum_insert registered (goroutines s) i _ (GRun p) Hi) as Hsum.
          simpl in Hsum. lia.
        - apply Forall_insert; assumption. }
      destruct (taskQueue (ps_pool s)) as [|p rest] eqn:Hq;
        destruct (IsShutdown (ps_pool s)); try discriminate Hstep.
      * injection Hstep as <-. exact Hdone.
      * destruct b; injection Hstep as <-; [apply Hrecv; reflexivity|exact Hdone].
      * injection Hstep as <-. apply Hrecv. reflexivity.
    + assert (Hp : p < length (ps_heap s)).
      { destruct Hinv as [_ _ Hg _ _].
        exact (proj1 (Forall_lookup _ _) Hg i _ Hi). }
      destruct (ps_heap s !! p) as [f|]; [|discriminate Hstep]. simpl in Hstep.
      destruct (IsDone f); injection Hstep as <-;
        eapply ps_inv_goto_g_same; eauto.
    + destruct (workerWaitGroup s) as [|n] eqn:Hwg.
      * destruct Hinv as [Hc _ _ _ _].
        pose proof (sum_lookup_le registered (goroutines s) i _ Hi) as Hle.
        simpl in Hle. lia.
      * injection Hstep as <-. eapply ps_inv_goto_g; eauto; simpl; lia.
  - unfold task_returns in Hstep.
    destruct (goroutines s !! i) as [[| | |p|p| |]|] eqn:Hi; try discriminate Hstep.
    destruct (ps_heap s !! p) as [f|]; [|discriminate Hstep]. simpl in Hstep.
    destruct (Run_body_returns f) as (f' & Hr & _). rewrite Hr in Hstep.
    injection Hstep as <-.
    apply (ps_inv_goto_g_same i (GTask p) GCheck); auto.
    apply ps_inv_heap; [exact Hinv|]. apply length_insert.
  - injection Hstep as <-. destruct Hinv as [Hc Hq Hg Hs Hok].
    split; simpl; auto.
  - unfold on_future in Hstep.
    destruct (ps_heap s !! p) as [f|]; [|discriminate Hstep].
    injection Hstep as <-. apply ps_inv_heap; [exact Hinv|]. apply length_insert.
  - unfold on_future in Hstep.
    destruct (ps_heap s !! p) as [f|]; [|discriminate Hstep].
    injection Hstep as <-. apply ps_inv_heap; [exact Hinv|]. apply length_insert.
Qed.

Lemma ps_run_inv (acts : list (ps_action R)) s s' :
  ps_inv s -> ps_run acts s = Some s' -> ps_inv s'.
Proof.
  revert s. induction acts as [|a acts IH]; simpl; intros s Hinv Hrun.
  - injection Hrun as <-. exact Hinv.
  - destruct (ps_step a s) as [s1|] eqn:Hs; simpl in Hrun; [|discriminate].
    eapply IH; [|exact Hrun]. eapply ps_step_inv; eauto.
Qed.

Lemma rank_after_insert (gs : list gpc) (i j : nat) (g' gj : gpc) :
  gs !! j = Some gj ->
  gpc_rank g' < gpc_rank gj ->
  match <[j := g']> gs !! i with Some g => gpc_rank g | None => 0 end
  <= match gs !! i with Some g => gpc_rank g | None => 0 end /\
  (j = i ->
   match <[j := g']> gs !! i with Some g => gpc_rank g | None => 0 end
   < match gs !! i with Some g => gpc_rank g | None => 0 end).
Proof.
  intros Hj Hlt.
  assert (Hjl : j < length gs) by (eapply lookup_lt_Some; eauto).
  destruct (decide (j = i)) as [->|Hne].
  - rewrite list_lookup_insert_eq by exact Hjl. rewrite Hj. split; [lia|].
    intros _. exact Hlt.
  - rewrite list_lookup_insert_ne by exact Hne. split; [lia|].
    intros Hji. contradiction.
Qed.

(** On a pool that is shut down, the only actions that move a worker are
    its own statements and the return of its task, and each of them lowers
    its rank. *)
Lemma shut_down_moves (a : ps_action R) s s1 :
  IsShutdown (ps_pool s) = true ->
  ps_step a s = Some s1 ->
  match mover a with
  | None => goroutines s1 = goroutines s
  | Some j => exists gj g',
      goroutines s !! j = Some gj /\
      goroutines s1 = <[j := g']> (goroutines s) /\
      gpc_rank g' < gpc_rank gj
  end.
Proof.
  intros Hsd Hstep.
  destruct a as [c task|k| |k|b i|i|e cs|p|p e cs]; simpl in *.
  - injection Hstep as <-. reflexivity.
  - unfold Submit_stmt in Hstep.
    destruct (submits s !! k) as [[c task|c p|p]|]; try discriminate Hstep.
    + rewrite Hsd in Hstep. injection Hstep as <-. reflexivity.
    + destruct (Z.of_nat (length (taskQueue (ps_pool s))) <? wp_cap (ps_pool s))%Z;
        injection Hstep as <-; reflexivity.
  - injection Hstep as <-. reflexivity.
  - unfold Shutdown_stmt in Hstep.
    destruct (shutdowns s !! k) as [[| | |]|]; try discriminate Hstep.
    + rewrite Hsd in Hstep. injection Hstep as <-. reflexivity.
    + injection Hstep as <-. reflexivity.
    + destruct (workerWaitGroup s); [|discriminate Hstep].
      injection Hstep as <-. reflexivity.
  - unfold worker_stmt in Hstep.
    destruct (goroutines s !! i) as [[| | |p|p| |]|] eqn:Hi; try discriminate Hstep.
    + injection Hstep as <-. exists GStart, GCheck. simpl. repeat split; lia.
    + rewrite Hsd in Hstep. injection Hstep as <-. exists GCheck, GDone. simpl. repeat split; lia.
    + rewrite Hsd in Hstep.
      destruct (taskQueue (ps_pool s)) as [|p rest].
      * injection Hstep as <-. exists GSelect, GDone. simpl. repeat split; lia.
      * destruct b; injection Hstep as <-.
        -- exists GSelect, (GRun p). simpl. repeat split; lia.
        -- exists GSelect, GDone. simpl. repeat split; lia.
    + destruct (ps_heap s !! p) as [f|]; [|discriminate Hstep]. simpl in Hstep.
      destruct (IsDone f); injection Hstep as <-.
      * exists (GRun p), GCheck. simpl. repeat split; lia.
      * exists (GRun p), (GTask p). simpl. repeat split; lia.
    + destruct (workerWaitGroup s); injection Hstep as <-;
        exists GDone, GExited; simpl; repeat split; lia.
  - unfold task_returns in Hstep.
    destruct (goroutines s !! i) as [[| | |p|p| |]|] eqn:Hi; try discriminate Hstep.
    destruct (ps_heap s !! p) as [f|]; [|discriminate Hstep]. simpl in Hstep.
    destruct (Run_body f); injection Hstep as <-.
    + exists (GTask p), GCheck. simpl. repeat split; lia.
    + exists (GTask p), GExited. simpl. repeat split; lia.
  - injection Hstep as <-. reflexivity.
  - unfold on_future in Hstep.
    destruct (ps_heap s !! p) as [f|]; [|discriminate Hstep].
    injection Hstep as <-. reflexivity.
  - unfold on_future in Hstep.
    destruct (ps_heap s !! p) as [f|]; [|discriminate Hstep].
    injection Hstep as <-. reflexivity.
Qed.

(** On a pool that is shut down, a worker that is not inside a task and has
    not returned can take its next statement; inside a task it cannot, and
    moves on when the task returns. *)
Lemma shut_down_enabled (b : bool) (i : nat) s :
  ps_inv s ->
  IsShutdown (ps_pool s) = true ->
  match goroutines s !! i with
  | Some GExited | None => True
  | Some (GTask _) => worker_stmt b i s = None /\ is_Some (task_returns i s)
  | Some _ => is_Some (worker_stmt b i s)
  end.
Proof.
  intros Hinv Hsd. unfold worker_stmt, task_returns. rewrite Hsd.
  destruct (goroutines s !! i) as [[| | |p|p| |]|] eqn:Hi; try exact I.
  - eauto.
  - eauto.
  - destruct (taskQueue (ps_pool s)); [|destruct b]; eauto.
  - destruct Hinv as [_ _ Hg _ _].
    pose proof (proj1 (Forall_lookup _ _) Hg i _ Hi) as Hp. simpl in Hp.
    destruct (lookup_lt_is_Some_2 _ _ Hp) as [f ->]. simpl.
    destruct (IsDone f); eauto.
  - split; [reflexivity|].
    destruct Hinv as [_ _ Hg _ _].
    pose proof (proj1 (Forall_lookup _ _) Hg i _ Hi) as Hp. simpl in Hp.
    destruct (lookup_lt_is_Some_2 _ _ Hp) as [f ->]. simpl.
    destruct (Run_body f); eauto.
  - destruct (workerWaitGroup s); eauto.
Qed.


(** The calls as the sections above take them are schedules of the
    statements: a call of [Submit] that nothing interrupts does what
    [Submit] does in one step, and a worker that receives a future and runs
    it while nothing else happens does what [take_and_run] does. *)
Lemma Submit_uninterrupted (c : ctx R) (task : Task R) s :
  exists s',
    ps_run (PCallSubmit c task :: PSubmit (length (submits s))
            :: (if IsShutdown (ps_pool s) then []
                else [PSubmit (length (submits s))])) s = Some s' /\
    as_system s' = snd (Submit c task (as_system s)) /\
    submits s' !! length (submits s)
    = Some (SubReturned (fst (Submit c task (as_system s)))).
Proof.
  assert (Hl : forall sp : subpc R,
             (submits s ++ [sp]) !! length (submits s) = Some sp).
  { intros sp. rewrite lookup_app_r by lia. rewrite Nat.sub_diag. reflexivity. }
  assert (Hi : forall sp sp' : subpc R,
             <[length (submits s) := sp']> (submits s ++ [sp]) !! length (submits s)
             = Some sp').
  { intros sp sp'. apply list_lookup_insert_eq. rewrite length_app. simpl. lia. }
  unfold Submit. cbn [ps_run ps_step]. unfold Submit_stmt at 1. cbn.
  rewrite Hl. destruct (IsShutdown (ps_pool s)) eqn:Hsd; cbn.
  - eexists. split; [reflexivity|]. cbn. rewrite Hi. split; reflexivity.
  - unfold Submit_stmt. cbn. rewrite Hi.
    destruct (Z.of_nat (length (taskQueue (ps_pool s))) <? wp_cap (ps_pool s))%Z;
      cbn; (eexists; split; [reflexivity|]); cbn;
      rewrite list_insert_insert_eq, Hi; split; reflexivity.
Qed.

Lemma worker_uninterrupted (b : bool) (i p : nat) (rest : list nat) f s :
  goroutines s !! i = Some GSelect ->
  taskQueue (ps_pool s) = p :: rest ->
  ps_heap s !! p = Some f ->
  (IsShutdown (ps_pool s) = true -> b = true) ->
  exists s',
    ps_run (PWorker b i :: PWorker b i
            :: (if IsDone f then [] else [PTaskReturns i])) s = Some s' /\
    as_system s' = take_and_run i p rest (as_system s) /\
    goroutines s' !! i = Some GCheck.
Proof.
  intros Hi Hq Hf Hb.
  assert (Hil : i < length (goroutines s)) by (eapply lookup_lt_Some; eauto).
  assert (Hstep1 : worker_stmt b i s = Some (receive i p rest s)).
  { unfold worker_stmt. rewrite Hi, Hq.
    destruct (IsShutdown (ps_pool s)); [|reflexivity].
    rewrite Hb by reflexivity. reflexivity. }
  cbn [ps_run ps_step]. rewrite Hstep1. cbn [mbind option_bind].
  unfold worker_stmt at 1. cbn [goroutines receive goto_g ps_with_goroutines].
  rewrite list_lookup_insert_eq by exact Hil. cbn. rewrite Hf. cbn.
  unfold take_and_run. cbn. rewrite Hf. rewrite Run_unfold.
  destruct (IsDone f) eqn:Hd; cbn.
  - eexists. split; [reflexivity|]. cbn.
    rewrite list_insert_id by exact Hf.
    rewrite list_lookup_insert_eq by (rewrite length_insert; exact Hil).
    split; reflexivity.
  - unfold task_returns. cbn.
    rewrite list_lookup_insert_eq by (rewrite length_insert; exact Hil).
    cbn. rewrite Hf. cbn.
    destruct (Run_body_returns f) as (f' & -> & _). cbn.
    eexists. split; [reflexivity|]. cbn.
    rewrite list_lookup_insert_eq by (rewrite !length_insert; exact Hil).
    split; reflexivity.
Qed.
End WorkerPool_stmts_facts.

(** ** Further properties of the connection pool *)

(** Case analysis of one statement of [Execute]: [Hl] is the equation
    [Execute_stmt o c p n = Some (...)] with [c] and [p] already split into
    their fields. *)
Ltac stmt_cases Hl :=
  unfold Execute_stmt, goto, enter_fn, cp_IsShutdown, Get_select, recv_ready,
    recv_idle, Put_select in Hl;
  simpl in Hl;
  repeat match type of Hl with
    | context [match ?x with _ => _ end] => is_var x; destruct x eqn:?
    | context [if ?b then _ else _] => destruct b eqn:?
    | context [match ?x with _ => _ end] => destruct x eqn:?
    end;
  try discriminate;
  injection Hl as <- <- <- <-.

Lemma slots_inv_init (d : bool) (cap : nat) : slots_inv (cp_init d cap).
Proof. split; reflexivity. Qed.

Lemma Execute_step_slots (o : oracle) (i : nat) (s s' : cp_state) :
  slots_inv s -> Execute_step o i s = Some s' -> slots_inv s'.
Proof.
  intros [Hsema Hwg]. unfold Execute_step.
  destruct (calls s !! i) as [c|] eqn:Hi; simpl; [|discriminate].
  destruct (Execute_stmt o c (cp s) (next_conn s)) as [[[[c' p'] next'] cl]|] eqn:Hl;
    simpl; [|discriminate].
  intros [= <-]. unfold slots_inv.
  rewrite close_conn_cp, close_conn_calls. simpl.
  pose proof (sum_insert holds_slot (calls s) i c c' Hi) as Eslot.
  pose proof (sum_insert in_wg (calls s) i c c' Hi) as Ewg.
  pose proof (sum_lookup_le holds_slot (calls s) i c Hi) as Lslot.
  pose proof (sum_lookup_le in_wg (calls s) i c Hi) as Lwg.
  destruct c as [pc0 caller0 created0 invoked0].
  destruct (cp s) as [done0 cap0 sema0 wg0 idle0 closed0] eqn:Hcp. simpl in *.
  destruct pc0; stmt_cases Hl; simpl in *; split; lia.
Qed.

Lemma cp_step_slots (a : cp_action) (s s' : cp_state) :
  slots_inv s -> cp_step a s = Some s' -> slots_inv s'.
Proof.
  intros Hinv. destruct a as [e|i e| |o i| | |e o|k|]; simpl.
  - intros [= <-]. destruct Hinv as [Hs Hw]. split; simpl;
      rewrite sum_list_with_app; simpl; lia.
  - destruct (calls s !! i) as [c|] eqn:Hi; simpl; [|discriminate].
    intros [= <-]. destruct Hinv as [Hs Hw].
    pose proof (sum_insert holds_slot (calls s) i c (caller_cancel e c) Hi).
    pose proof (sum_insert in_wg (calls s) i c (caller_cancel e c) Hi).
    assert (holds_slot (caller_cancel e c) = holds_slot c) by reflexivity.
    assert (in_wg (caller_cancel e c) = in_wg c) by reflexivity.
    split; simpl; lia.
  - intros [= <-]. exact Hinv.
  - apply Execute_step_slots, Hinv.
  - unfold Shutdown_step. destruct Hinv as [Hs Hw].
    destruct (sd s); simpl;
      repeat match goal with
        | |- context [if ?b then _ else _] => destruct b eqn:?
        | |- context [match ?x with _ => _ end] => destruct x eqn:?
        end; try discriminate; intros [= <-]; split; simpl; assumption.
  - intros [= <-]. unfold direct_Get_check.
    destruct (cp_IsShutdown (cp s)); exact Hinv.
  - unfold direct_Get_select, Get_select, recv_ready, recv_idle.
    destruct Hinv as [Hs Hw].
    destruct (getters s); [discriminate|]. simpl.
    repeat match goal with
      | |- context [if ?b then _ else _] => destruct b eqn:?
      | |- context [match ?x with _ => _ end] => destruct x eqn:?
      end; intros [= <-]; split; simpl; assumption.
  - intros [= <-]. unfold direct_Put_check. destruct Hinv as [Hs Hw].
    destruct (cp_IsShutdown (cp s)); split; simpl; assumption.
  - unfold direct_Put_select, Put_select. destruct Hinv as [Hs Hw].
    destruct (putters s); [discriminate|]. simpl.
    repeat match goal with
      | |- context [if ?b then _ else _] => destruct b eqn:?
      | |- context [match ?x with _ => _ end] => destruct x eqn:?
      end; intros [= <-]; split; simpl; assumption.
Qed.

Lemma cp_run_slots (acts : list cp_action) (s s' : cp_state) :
  slots_inv s -> cp_run acts s = Some s' -> slots_inv s'.
Proof.
  revert s. induction acts as [|a acts IH]; simpl; intros s Hinv Hrun.
  - injection Hrun as <-. exact Hinv.
  - destruct (cp_step a s) as [s1|] eqn:Hs; simpl in Hrun; [|discriminate].
    eapply IH; [|exact Hrun]. eapply cp_step_slots; eauto.
Qed.

Lemma sum_all_zero {A : Type} (f : A -> nat) (l : list A) :
  Forall (fun x => f x = 0) l -> sum_list_with f l = 0.
Proof. induction 1 as [|x l Hx _ IH]; simpl; lia. Qed.

Lemma sum_le_length {A : Type} (f : A -> nat) (l : list A) :
  (forall x, f x <= 1) -> sum_list_with f l <= length l.
Proof.
  intros Hf. induction l as [|x l IH]; simpl; [lia|]. specialize (Hf x). lia.
Qed.

(** X5. Slots and wait-group units are given back exactly once.  Whatever
    happens to a pool (calls of Execute, Shutdown, Get and Put, in any
    interleaving), the semaphore holds exactly one token per call of
    Execute that was admitted and has not yet run its deferred release, and
    the wait group counts exactly the calls between wg.Add and wg.Done; so
    once every call has returned the semaphore is empty and the wait group
    is at zero, also when fn panicked or Get failed. *)
Theorem slots_released_exactly_once (d : bool) (cap : nat)
    (acts : list cp_action) (s : cp_state) :
  cp_run acts (cp_init d cap) = Some s ->
  sema (cp s) = sum_list_with holds_slot (calls s) /\
  wg (cp s) = sum_list_with in_wg (calls s) /\
  wg (cp s) <= sema (cp s) <= length (calls s) /\
  (forallb returned (calls s) = true -> sema (cp s) = 0 /\ wg (cp s) = 0).
Proof.
  intros Hrun.
  destruct (cp_run_slots acts _ s (slots_inv_init d cap) Hrun) as [Hs Hw].
  split; [exact Hs|]. split; [exact Hw|]. split.
  - rewrite Hs, Hw. split.
    + apply sum_pointwise_le. intros c. unfold in_wg, holds_slot.
      destruct (pc c); lia.
    + apply sum_le_length. intros c. unfold holds_slot. destruct (pc c); lia.
  - intros Hall. rewrite Hs, Hw.
    assert (Hret : Forall (fun c => returned c = true) (calls s)).
    { apply Forall_forall. intros c Hc.
      apply (proj1 (forallb_forall _ _) Hall). apply list_elem_of_In. exact Hc. }
    split; apply sum_all_zero; (eapply Forall_impl; [exact Hret|]);
      intros c; unfold returned, holds_slot, in_wg; destruct (pc c);
      intros; try discriminate; reflexivity.
Qed.


Ltac nat_cases :=
  repeat match goal with
    | |- context [(?a =? ?b)%nat] => destruct (Nat.eqb_spec a b)
    | H : context [(?a =? ?b)%nat] |- _ => destruct (Nat.eqb_spec a b)
    | |- context [(?a <? ?b)%nat] => destruct (Nat.ltb_spec a b)
    | H : context [(?a <? ?b)%nat] |- _ => destruct (Nat.ltb_spec a b)
    end.

Lemma each_once_init (d : bool) (cap : nat) : each_once (cp_init d cap).
Proof. intros n. reflexivity. Qed.

Lemma Execute_step_places (o : oracle) (i : nat) (s s' : cp_state) :
  cp_inv s -> each_once s -> Execute_step o i s = Some s' -> each_once s'.
Proof.
  intros [Hsema Hcap Hwg Hbound Hsd Hclosed] Hown. unfold Execute_step.
  destruct (calls s !! i) as [c|] eqn:Hi; simpl; [|discriminate].
  destruct (Execute_stmt o c (cp s) (next_conn s)) as [[[[c' p'] next'] cl]|] eqn:Hl;
    simpl; [|discriminate].
  intros [= <-]. intros n. specialize (Hown n). unfold places in *.
  pose proof (sum_insert (holds_id n) (calls s) i c c' Hi) as Eh.
  pose proof (sum_lookup_le past_check (calls s) i c Hi) as Lpast.
  destruct c as [pc0 caller0 created0 invoked0].
  destruct (cp s) as [done0 cap0 sema0 wg0 idle0 closed0] eqn:Hcp. simpl in *.
  destruct pc0; stmt_cases Hl; simpl in *; rewrite ?sum_list_with_app; simpl.
  all: try (exfalso; destruct Hclosed as [_ ?]; [solve [auto] | lia]).
  all: nat_cases; subst; try lia.
Qed.

Lemma Shutdown_step_places (s s' : cp_state) :
  each_once s -> Shutdown_step s = Some s' -> each_once s'.
Proof.
  intros Hown. unfold Shutdown_step.
  destruct (sd s); simpl;
    repeat match goal with
      | |- context [if ?b then _ else _] => destruct b eqn:?
      | |- context [match ?x with _ => _ end] => destruct x eqn:?
      end; try discriminate; intros [= <-]; try exact Hown.
  intros n. specialize (Hown n). unfold places in *. simpl in *.
  match goal with H : idleCons _ = _ |- _ => rewrite H in Hown end.
  rewrite sum_list_with_app. simpl in *. lia.
Qed.

Lemma through_gated (a : cp_action) : through_Execute a = true -> gated a = true.
Proof. destruct a; simpl; intros H; try discriminate H; reflexivity. Qed.

Lemma cp_step_places (a : cp_action) (s s' : cp_state) :
  through_Execute a = true -> cp_inv s -> each_once s ->
  cp_step a s = Some s' -> each_once s'.
Proof.
  intros Ht Hinv Hown. destruct a as [e|i e| |o i| | |e o|k|]; simpl;
    try discriminate Ht.
  - intros [= <-]. intros n. specialize (Hown n). unfold places in *. simpl.
    rewrite sum_list_with_app. simpl. lia.
  - destruct (calls s !! i) as [c|] eqn:Hi; simpl; [|discriminate].
    intros [= <-]. intros n. specialize (Hown n). unfold places in *. simpl.
    pose proof (sum_insert (holds_id n) (calls s) i c (caller_cancel e c) Hi).
    assert (holds_id n (caller_cancel e c) = holds_id n c) by reflexivity.
    lia.
  - intros [= <-]. exact Hown.
  - apply Execute_step_places; assumption.
  - apply Shutdown_step_places; assumption.
Qed.

Lemma cp_run_places (acts : list cp_action) (s s' : cp_state) :
  forallb through_Execute acts = true -> cp_inv s -> each_once s ->
  cp_run acts s = Some s' -> cp_inv s' /\ each_once s'.
Proof.
  revert s. induction acts as [|a acts IH]; simpl; intros s Ht Hinv Hown Hrun.
  - injection Hrun as <-. auto.
  - apply andb_true_iff in Ht as [Ha Ht].
    destruct (cp_step a s) as [s1|] eqn:Hs; simpl in Hrun; [|discriminate].
    apply (IH s1 Ht); [| |exact Hrun].
    + eapply cp_step_inv; eauto using through_gated.
    + eapply cp_step_places; eauto.
Qed.

(** X7. No connection is shared, lost or closed twice.  On a pool used only
    through Execute and Shutdown (with cancellations of contexts, in any
    interleaving), every connection the factory has made is at every moment
    in exactly one place: in the hands of one call of Execute, or in the idle
    cache, or closed; and nothing else is in any of these places. *)
Theorem connection_in_exactly_one_place (d : bool) (cap : nat)
    (acts : list cp_action) (s : cp_state) (n : nat) :
  forallb through_Execute acts = true ->
  cp_run acts (cp_init d cap) = Some s ->
  (n < next_conn s -> places n s = 1) /\
  (next_conn s <= n -> places n s = 0) /\
  places n s = sum_list_with (holds_id n) (calls s)
               + sum_list_with (is_conn n) (idleCons (cp s))
               + sum_list_with (is_conn n) (closedConns s).
Proof.
  intros Ht Hrun.
  destruct (cp_run_places acts _ s Ht (cp_inv_init d cap) (each_once_init d cap) Hrun)
    as [_ Hown].
  specialize (Hown n). split; [|split; [|reflexivity]].
  - intros Hlt. rewrite Hown. destruct (Nat.ltb_spec n (next_conn s)); [reflexivity|lia].
  - intros Hge. rewrite Hown. destruct (Nat.ltb_spec n (next_conn s)); [lia|reflexivity].
Qed.

Lemma Shutdown_run_S (fuel : nat) (s : cp_state) :
  Shutdown_run (S fuel) s
  = s' ← Shutdown_step s;
    match sd s' with
    | SIdle => Some s'
    | _ => Shutdown_run fuel s'
    end.
Proof. reflexivity. Qed.

Lemma Shutdown_drain (l : list Conn) (s : cp_state) :
  sd s = SDrain -> idleCons (cp s) = l ->
  Shutdown_run (S (length l)) s
  = Some {| cp := set_idle [] (cp s); calls := calls s; sd := SIdle;
            next_conn := next_conn s; closedConns := closedConns s ++ l;
            getters := getters s; putters := putters s |}.
Proof.
  revert s. induction l as [|k l IH]; intros s Hsd Hidle;
    rewrite Shutdown_run_S; unfold Shutdown_step; rewrite Hsd, Hidle.
  - cbn [mbind option_bind with_sd sd]. rewrite app_nil_r.
    destruct s as [p ? ? ? ? ? ?]. destruct p. simpl in *. subst. reflexivity.
  - set (s1 := close_conn (Some k) (with_cp (set_idle l (cp s)) s)).
    cbn [mbind option_bind].
    assert (Hsd1 : sd s1 = SDrain) by exact Hsd.
    rewrite Hsd1. cbn [length]. rewrite (IH s1 Hsd1 eq_refl).
    subst s1. simpl. rewrite <- app_assoc. reflexivity.
Qed.

(** X8. Shutdown drains the idle cache.  Called on a live pool, Shutdown
    run to its end cancels the pool's context, closes the idle channel and
    closes every idle connection, oldest first, leaving the cache empty and
    the calls, the semaphore and the wait group as they were; a second
    Shutdown then returns at once and changes nothing.  While a call of
    Execute is between wg.Add and wg.Done, Shutdown does not return. *)
Theorem Shutdown_drains_idle (s : cp_state) :
  sd s = SIdle ->
  cp_done (cp s) = false ->
  match wg (cp s) with
  | 0 =>
      exists s', Shutdown_run (5 + length (idleCons (cp s))) s = Some s' /\
        cp s' = set_idle [] (set_closed (set_done (cp s))) /\
        closedConns s' = closedConns s ++ idleCons (cp s) /\
        calls s' = calls s /\ next_conn s' = next_conn s /\
        Shutdown_run 1 s' = Some s'
  | S _ => forall fuel, Shutdown_run fuel s = None
  end.
Proof.
  intros Hsd Hdone.
  set (s1 := with_sd SCancel s).
  set (s2 := with_sd SWait (with_cp (set_done (cp s1)) s1)).
  assert (H1 : Shutdown_step s = Some s1).
  { unfold Shutdown_step, cp_IsShutdown. rewrite Hsd, Hdone. reflexivity. }
  assert (H2 : Shutdown_step s1 = Some s2) by reflexivity.
  destruct (wg (cp s)) as [|w] eqn:Hwg.
  - set (s3 := with_sd SClose s2).
    set (s4 := with_sd SDrain (with_cp (set_closed (cp s3)) s3)).
    assert (H3 : Shutdown_step s2 = Some s3).
    { unfold Shutdown_step. cbn [sd s2 with_sd]. 
      replace (wg (cp s2)) with 0 by (symmetry; exact Hwg). reflexivity. }
    assert (H4 : Shutdown_step s3 = Some s4) by reflexivity.
    eexists. split.
    + change (5 + length (idleCons (cp s)))
        with (S (S (S (S (S (length (idleCons (cp s)))))))).
      rewrite Shutdown_run_S, H1. cbn [mbind option_bind s1 with_sd sd].
      rewrite Shutdown_run_S. fold s1. rewrite H2.
      cbn [mbind option_bind s2 with_sd sd].
      rewrite Shutdown_run_S. fold s2. rewrite H3.
      cbn [mbind option_bind s3 with_sd sd].
      rewrite Shutdown_run_S. fold s3. rewrite H4.
      cbn [mbind option_bind s4 with_sd sd]. fold s4.
      apply (Shutdown_drain (idleCons (cp s)) s4); reflexivity.
    + simpl. repeat split.
  - assert (H3 : Shutdown_step s2 = None).
    { unfold Shutdown_step. cbn [sd s2 with_sd].
      replace (wg (cp s2)) with (S w) by (symmetry; exact Hwg). reflexivity. }
    intros fuel. destruct fuel as [|[|[|fuel]]]; [reflexivity| | |].
    + rewrite Shutdown_run_S, H1. reflexivity.
    + rewrite Shutdown_run_S, H1. cbn [mbind option_bind s1 with_sd sd].
      rewrite Shutdown_run_S. fold s1. rewrite H2. reflexivity.
    + rewrite Shutdown_run_S, H1. cbn [mbind option_bind s1 with_sd sd].
      rewrite Shutdown_run_S. fold s1. rewrite H2.
      cbn [mbind option_bind s2 with_sd sd].
      rewrite Shutdown_run_S. fold s2. rewrite H3. reflexivity.
Qed.

Lemma Execute_stmt_ok (o : oracle) (c c' : exec_call) (p p' : ConnPool)
    (n n' : nat) (cl : option Conn) :
  call_ok c -> Execute_stmt o c p n = Some (c', p', n', cl) -> call_ok c'.
Proof.
  unfold call_ok.
  destruct p as [done0 cap0 sema0 wg0 idle0 closed0].
  destruct c as [pc0 caller0 created0 invoked0].
  destruct pc0; simpl; intros Hu Hl; stmt_cases Hl; simpl;
    repeat split; try lia;
    try (destruct Hu as (_ & _ & Hu); exact Hu);
    try (intros; lia); try (intros _; solve [eauto]).
Qed.

Lemma cp_step_ok (a : cp_action) (s s' : cp_state) :
  Forall call_ok (calls s) -> cp_step a s = Some s' -> Forall call_ok (calls s').
Proof.
  intros Hall. destruct a as [e|i e| |o i| | |e o|k|]; simpl.
  - intros [= <-]. simpl. apply Forall_app. split; [exact Hall|].
    constructor; [|constructor]. unfold call_ok. simpl. auto.
  - destruct (calls s !! i) as [c|] eqn:Hi; simpl; [|discriminate].
    intros [= <-]. simpl. apply Forall_insert; [exact Hall|].
    pose proof (Forall_lookup_1 _ _ _ _ Hall Hi) as Hc.
    unfold call_ok, caller_cancel in *. simpl. exact Hc.
  - intros [= <-]. exact Hall.
  - unfold Execute_step. destruct (calls s !! i) as [c|] eqn:Hi; simpl; [|discriminate].
    destruct (Execute_stmt o c (cp s) (next_conn s)) as [[[[c' p'] n'] cl]|] eqn:Hl;
      simpl; [|discriminate].
    intros [= <-]. rewrite close_conn_calls. simpl.
    apply Forall_insert; [exact Hall|].
    eapply Execute_stmt_ok; [|exact Hl].
    exact (Forall_lookup_1 _ _ _ _ Hall Hi).
  - unfold Shutdown_step. destruct (sd s); simpl;
      repeat match goal with
        | |- context [if ?b then _ else _] => destruct b eqn:?
        | |- context [match ?x with _ => _ end] => destruct x eqn:?
        end; try discriminate; intros [= <-]; exact Hall.
  - intros [= <-]. unfold direct_Get_check.
    destruct (cp_IsShutdown (cp s)); exact Hall.
  - unfold direct_Get_select.
    destruct (getters s); [discriminate|]. simpl.
    repeat match goal with
      | |- context [if ?b then _ else _] => destruct b eqn:?
      | |- context [match ?x with _ => _ end] => destruct x eqn:?
      end; intros [= <-]; exact Hall.
  - intros [= <-]. unfold direct_Put_check.
    destruct (cp_IsShutdown (cp s)); exact Hall.
  - unfold direct_Put_select.
    destruct (putters s); [discriminate|]. simpl.
    repeat match goal with
      | |- context [if ?b then _ else _] => destruct b eqn:?
      | |- context [match ?x with _ => _ end] => destruct x eqn:?
      end; intros [= <-]; rewrite ?close_conn_calls; exact Hall.
Qed.

Lemma cp_run_ok (acts : list cp_action) (s s' : cp_state) :
  Forall call_ok (calls s) -> cp_run acts s = Some s' ->
  Forall call_ok (calls s').
Proof.
  revert s. induction acts as [|a acts IH]; simpl; intros s Hall Hrun.
  - injection Hrun as <-. exact Hall.
  - destruct (cp_step a s) as [s1|] eqn:Hs; simpl in Hrun; [|discriminate].
    eapply IH; [|exact Hrun]. eapply cp_step_ok; eauto.
Qed.

(** X9. Execute runs fn at most once.  Whatever happens to the pool, a
    call of Execute invokes fn at most once and has at most one connection
    made for it, and only when it goes on to invoke fn on it; a call that
    returns without having invoked fn returns a non-nil error, so a nil
    result (or a panic) is only ever reported after fn ran. *)
Theorem Execute_runs_fn_at_most_once (d : bool) (cap : nat)
    (acts : list cp_action) (s : cp_state) (i : nat) (c : exec_call) :
  cp_run acts (cp_init d cap) = Some s ->
  calls s !! i = Some c ->
  invoked c <= 1 /\
  created c <= invoked c /\
  (forall r, pc c = EReturned r ->
     (invoked c = 0 -> exists e, r = Ret (Some e)) /\
     (r = Ret None -> invoked c = 1)).
Proof.
  intros Hrun Hi.
  assert (Hok : call_ok c).
  { eapply Forall_lookup_1; [|exact Hi].
    eapply cp_run_ok; [|exact Hrun]. constructor. }
  unfold call_ok in Hok.
  destruct (pc c) eqn:Hpc; (split; [|split]); try lia;
    try (intros r0 Hr; discriminate Hr).
  intros r0 [= <-]. destruct Hok as (Hv & Hc & He).
  split; [exact He|]. intros ->.
  destruct (invoked c) as [|[|k]]; [|reflexivity|lia].
  destruct (He eq_refl) as [e He']. discriminate He'.
Qed.

Lemma Execute_stmt_quiet (o : oracle) (c c' : exec_call) (p p' : ConnPool)
    (n n' : nat) (cl : option Conn) :
  cp_done p = true -> past_check c = 0 ->
  Execute_stmt o c p n = Some (c', p', n', cl) ->
  past_check c' = 0 /\ cp_done p' = true /\ idle_closed p' = idle_closed p /\
  idleCons p' = idleCons p /\ n' = n /\ cl = None.
Proof.
  destruct p as [done0 cap0 sema0 wg0 idle0 closed0].
  destruct c as [pc0 caller0 created0 invoked0].
  simpl. intros -> Hp Hl.
  destruct pc0; simpl in Hp; try discriminate Hp; stmt_cases Hl; simpl;
    repeat split; reflexivity.
Qed.

(** X10. A pool cancelled through its parent is never drained.  When the
    pool's context is done without Shutdown having cancelled it (its parent
    was cancelled, as Application.Start does before it calls Shutdown) and
    no call stands between Get and Put, then whatever calls of Execute and
    Shutdown follow, Shutdown returns at its first test: the idle channel is
    never closed, the idle connections stay in the cache unclosed, and no
    connection is made or closed any more. *)
Theorem cancelled_pool_is_never_drained (acts : list cp_action) (s0 s : cp_state) :
  cp_done (cp s0) = true ->
  sd s0 = SIdle ->
  sum_list_with past_check (calls s0) = 0 ->
  forallb through_Execute acts = true ->
  cp_run acts s0 = Some s ->
  sd s = SIdle /\
  idle_closed (cp s) = idle_closed (cp s0) /\
  idleCons (cp s) = idleCons (cp s0) /\
  closedConns s = closedConns s0 /\
  next_conn s = next_conn s0 /\
  Shutdown_run 1 s = Some s.
Proof.
  revert s0. induction acts as [|a acts IH]; simpl; intros s0 Hd Hsd Hp Ht Hrun.
  - injection Hrun as <-. repeat split; auto.
    unfold Shutdown_step, cp_IsShutdown. rewrite Hsd, Hd. simpl. rewrite Hsd.
    reflexivity.
  - apply andb_true_iff in Ht as [Ha Ht].
    destruct (cp_step a s0) as [s1|] eqn:Hs; simpl in Hrun; [|discriminate].
    assert (Hstep : cp_done (cp s1) = true /\ sd s1 = SIdle /\
                    sum_list_with past_check (calls s1) = 0 /\
                    idle_closed (cp s1) = idle_closed (cp s0) /\
                    idleCons (cp s1) = idleCons (cp s0) /\
                    closedConns s1 = closedConns s0 /\
                    next_conn s1 = next_conn s0).
    { clear IH Hrun Ht. destruct a as [e|i e| |o i| | |e o|k|]; simpl in Hs;
        try discriminate Ha.
      - injection Hs as <-. simpl. rewrite sum_list_with_app. simpl.
        repeat split; auto. lia.
      - destruct (calls s0 !! i) as [c|] eqn:Hi; simpl in Hs; [|discriminate].
        injection Hs as <-. simpl.
        pose proof (sum_insert past_check (calls s0) i c (caller_cancel e c) Hi).
        assert (past_check (caller_cancel e c) = past_check c) by reflexivity.
        repeat split; auto. lia.
      - injection Hs as <-. simpl. repeat split; auto.
      - unfold Execute_step in Hs.
        destruct (calls s0 !! i) as [c|] eqn:Hi; simpl in Hs; [|discriminate].
        destruct (Execute_stmt o c (cp s0) (next_conn s0))
          as [[[[c' p'] n'] cl]|] eqn:Hl; simpl in Hs; [|discriminate].
        injection Hs as <-.
        pose proof (sum_lookup_le past_check (calls s0) i c Hi) as Lp.
        pose proof (sum_insert past_check (calls s0) i c c' Hi) as Ep.
        destruct (Execute_stmt_quiet o c c' (cp s0) p' (next_conn s0) n' cl Hd)
          as (Hc' & Hd' & Hcl & Hidle & Hn & ->); [lia | exact Hl |].
        simpl. repeat split; auto. lia.
      - unfold Shutdown_step, cp_IsShutdown in Hs. rewrite Hsd, Hd in Hs.
        injection Hs as <-. repeat split; auto. }
    destruct Hstep as (Hd1 & Hsd1 & Hp1 & Hc1 & Hi1 & Hcc1 & Hn1).
    destruct (IH s1 Hd1 Hsd1 Hp1 Ht Hrun) as (H1 & H2 & H3 & H4 & H5 & H6).
    repeat split; try congruence. exact H6.
Qed.

(** ** Further properties of the cache and of the request handler *)

Lemma pooling_loop_shape (ws : list wake) :
  exists n, n <= live_ticks ws /\
    (pooling_loop ws = replicate n Refreshed \/
     (pooling_loop ws = replicate n Refreshed ++ [Stopped] /\
      Exists (fun w => ctx_done w = true) ws)).
Proof.
  induction ws as [|w ws (n & Hn & IH)]; simpl.
  - exists 0. split; [lia|]. left. reflexivity.
  - rewrite live_ticks_cons. unfold pooling_select.
    destruct (tick_ready w) eqn:Ht; destruct (ctx_done w) eqn:Hd;
      try destruct (prefer_tick w).
    all: first
      [ (* a refresh, then the rest *)
        exists (S n); split; [lia|];
        destruct IH as [->|[-> Hex]];
        [left; reflexivity | right; split; [reflexivity | apply Exists_cons_tl, Hex]]
      | (* the goroutine returns *)
        exists 0; split; [lia|]; right; split;
        [reflexivity | apply Exists_cons_hd; exact Hd]
      | (* nothing ready: the wait goes on *)
        exists n; split; [lia|];
        destruct IH as [->|[-> Hex]];
        [left; reflexivity | right; split; [reflexivity | apply Exists_cons_tl, Hex]] ].
Qed.

(** X11. What the refresher does is always: one refresh, then at most one
    more refresh for every wake-up that found a tick, then possibly its
    return.  It never refreshes after it has returned, never refreshes more
    often than ticks arrived (plus the first time), and never returns unless
    some wake-up found its context done. *)
Theorem pooling_refreshes_then_stops (ws : list wake) :
  exists n, n <= live_ticks ws /\
    refresh_count (pooling ws) = S n /\
    (pooling ws = replicate (S n) Refreshed \/
     (pooling ws = replicate (S n) Refreshed ++ [Stopped] /\
      Exists (fun w => ctx_done w = true) ws)).
Proof.
  destruct (pooling_loop_shape ws) as (n & Hn & Hshape).
  exists n. split; [exact Hn|].
  assert (Hcount : forall k tl, (tl = [] \/ tl = [Stopped]) ->
            refresh_count (replicate k Refreshed ++ tl) = k).
  { intros k tl Htl. induction k as [|k IH]; simpl.
    - destruct Htl as [->| ->]; reflexivity.
    - rewrite refresh_count_cons. simpl. rewrite IH. reflexivity. }
  unfold pooling. destruct Hshape as [->|[-> Hex]].
  - split.
    + rewrite refresh_count_cons. simpl. f_equal.
      rewrite <- (app_nil_r (replicate n Refreshed)). apply Hcount. auto.
    + left. reflexivity.
  - split.
    + rewrite refresh_count_cons. simpl. f_equal. apply Hcount. auto.
    + right. split; [reflexivity|exact Hex].
Qed.

(** X12. The request handler end to end.  On a live pool with an empty queue
    and a worker waiting, a request with a live context gets no response
    before the worker runs its task; after the worker's step the response
    is 200 with body "pong" exactly when the query returned nil, and 500
    when the query returned an error or panicked; no panic escapes the
    worker. *)
Theorem handlerRequest_responds (query : ctx Data -> go (option error))
    (b : bool) (i : nat) (s : system Data) :
  IsShutdown (pool s) = false ->
  taskQueue (pool s) = [] ->
  (0 < wp_cap (pool s))%Z ->
  workers s !! i = Some WSelect ->
  handler_response (fst (handlerRequest Background query s))
                   (snd (handlerRequest Background query s)) = None /\
  exists s2,
    worker_step b i (snd (handlerRequest Background query s)) = Some s2 /\
    handler_response (fst (handlerRequest Background query s)) s2
    = Some (match query None with
            | Ret None => StatusOK "pong"
            | _ => StatusInternalServerError
            end) /\
    crashed s2 = crashed s.
Proof.
  intros Hsd Hq Hcap Hi. split.
  - unfold handlerRequest, handler_response, Submit. rewrite Hsd. simpl.
    rewrite Hq. simpl.
    assert (Hltb : (Z.of_nat 0 <? wp_cap (pool s))%Z = true)
      by (apply Z.ltb_lt; simpl; lia).
    rewrite Hltb. simpl. rewrite lookup_app_r by lia.
    rewrite Nat.sub_diag. reflexivity.
  - destruct (submit_then_step Background (handler_task query) b i s Hsd Hq Hcap Hi)
      as (s2 & f & Hstep & Hh & Hg & _ & _ & Hc).
    exists s2. split; [exact Hstep|]. split; [|exact Hc].
    unfold handler_response, handlerRequest. rewrite Hh. simpl. rewrite Hg.
    simpl. unfold handler_task.
    destruct (query None) as [[e|]|v]; reflexivity.
Qed.

Lemma Execute_step_sound (o : oracle) (i : nat) (s s' : cp_state) :
  calm (CExec o i) = true ->
  cp_inv s ->
  Forall (fun k => k <> nilConn) (idleCons (cp s)) ->
  Forall sound (calls s) ->
  Execute_step o i s = Some s' ->
  Forall (fun k => k <> nilConn) (idleCons (cp s')) /\ Forall sound (calls s').
Proof.
  intros Hcalm [Hsema Hcap Hwg Hbound Hsd Hclosed] Hidle Hall. unfold Execute_step.
  destruct (calls s !! i) as [c|] eqn:Hi; simpl; [|discriminate].
  destruct (Execute_stmt o c (cp s) (next_conn s)) as [[[[c' p'] next'] cl]|] eqn:Hl;
    simpl; [|discriminate].
  intros [= <-]. rewrite close_conn_cp, close_conn_calls. simpl.
  pose proof (Forall_lookup_1 _ _ _ _ Hall Hi) as Hc.
  pose proof (sum_lookup_le past_check (calls s) i c Hi) as Lpast.
  assert (Hgoal : Forall (fun k => k <> nilConn) (idleCons p') /\ sound c').
  { clear Hall Hi. simpl in Hcalm. unfold sound in *.
    destruct c as [pc0 caller0 created0 invoked0].
    destruct (cp s) as [done0 cap0 sema0 wg0 idle0 closed0] eqn:Hcp. simpl in *.
    destruct pc0; stmt_cases Hl; simpl in *.
    all: repeat match goal with
         | H : _ && _ = true |- _ => apply andb_true_iff in H as [? ?]
         end; subst.
    all: try (exfalso; destruct Hclosed as [_ ?]; [solve [auto] | lia]).
    all: repeat match goal with
         | H : Forall _ (_ :: _) |- _ => apply Forall_cons in H as [? ?]
         | H : _ /\ _ |- _ => destruct H
         end.
    all: split;
      [ first [ assumption | constructor; assumption
              | apply Forall_app; split;
                [assumption | constructor; [assumption | constructor]] ]
      | ].
    all: try solve [eauto | exact I | assumption | intros H; discriminate H].
    all: split; [assumption|].
    all: try assumption.
    all: destruct (fn_result o); [eauto | discriminate]. }
  destruct Hgoal as [Hi' Hc']. split; [exact Hi'|].
  apply Forall_insert; assumption.
Qed.

Lemma cp_step_sound (a : cp_action) (s s' : cp_state) :
  gated a = true -> calm a = true ->
  cp_inv s ->
  Forall (fun k => k <> nilConn) (idleCons (cp s)) ->
  Forall sound (calls s) ->
  cp_step a s = Some s' ->
  Forall (fun k => k <> nilConn) (idleCons (cp s')) /\ Forall sound (calls s').
Proof.
  intros Hg Hcalm Hinv Hidle Hall.
  destruct a as [e|i e| |o i| | |e o|k|]; simpl; try discriminate Hg.
  - intros [= <-]. simpl. split; [exact Hidle|]. apply Forall_app.
    split; [exact Hall|]. constructor; [exact I|constructor].
  - destruct (calls s !! i) as [c|] eqn:Hi; simpl; [|discriminate].
    intros [= <-]. simpl. split; [exact Hidle|].
    apply Forall_insert; [exact Hall|].
    exact (Forall_lookup_1 _ _ _ _ Hall Hi).
  - intros [= <-]. simpl. auto.
  - apply Execute_step_sound; assumption.
  - unfold Shutdown_step. destruct (sd s); simpl;
      repeat match goal with
        | |- context [if ?b then _ else _] => destruct b eqn:?
        | |- context [match ?x with _ => _ end] => destruct x eqn:?
        end; try discriminate; intros [= <-]; simpl; auto.
    all: try (apply Forall_cons in Hidle as [_ Hrest]).
    all: repeat match goal with H : idleCons _ = _ |- _ => rewrite H end.
    all: split; auto.
  - intros [= <-]. unfold direct_Get_check.
    destruct (cp_IsShutdown (cp s)); simpl; auto.
  - unfold direct_Get_select, Get_select, recv_ready, recv_idle.
    destruct (getters s); [discriminate|]. simpl.
    destruct (idleCons (cp s)) as [|k rest] eqn:Hq;
      repeat match goal with
        | |- context [if ?b then _ else _] => destruct b eqn:?
        | |- context [match ?x with _ => _ end] => destruct x eqn:?
        end; intros [= <-]; simpl; rewrite ?Hq; auto;
      apply Forall_cons in Hidle as [_ Hrest]; auto.
Qed.

Lemma cp_run_sound (acts : list cp_action) (s s' : cp_state) :
  forallb gated acts = true -> forallb calm acts = true ->
  cp_inv s ->
  Forall (fun k => k <> nilConn) (idleCons (cp s)) ->
  Forall sound (calls s) ->
  cp_run acts s = Some s' ->
  Forall sound (calls s').
Proof.
  revert s. induction acts as [|a acts IH]; simpl; intros s Hg Hc Hinv Hidle Hall Hrun.
  - injection Hrun as <-. exact Hall.
  - apply andb_true_iff in Hg as [Ha Hg]. apply andb_true_iff in Hc as [Hca Hc].
    destruct (cp_step a s) as [s1|] eqn:Hs; simpl in Hrun; [|discriminate].
    destruct (cp_step_sound a s s1 Ha Hca Hinv Hidle Hall Hs) as [Hidle1 Hall1].
    apply (IH s1 Hg Hc); auto. eapply cp_step_inv; eauto.
Qed.

(** X13. Execute does not fail on its own.  On a pool on which Put is
    reached only through Execute, and as long as fn itself does not panic,
    no call of Execute ever panics (the send in Put never meets a closed
    channel) and fn is never handed a nil connection (the receive in Get
    never meets a closed channel), whatever Shutdown does meanwhile. *)
Theorem Execute_never_fails_on_its_own (d : bool) (cap : nat)
    (acts : list cp_action) (s : cp_state) (i : nat) (c : exec_call) :
  forallb gated acts = true ->
  forallb calm acts = true ->
  cp_run acts (cp_init d cap) = Some s ->
  calls s !! i = Some c ->
  (forall k, pc c = EFn k -> exists n, k = conn n) /\
  (forall r, pc c = EReturned r -> exists x, r = Ret x).
Proof.
  intros Hg Hc Hrun Hi.
  assert (Hs : sound c).
  { eapply Forall_lookup_1; [|exact Hi].
    apply (cp_run_sound acts (cp_init d cap) s Hg Hc (cp_inv_init d cap));
      [constructor | constructor | exact Hrun]. }
  unfold sound in Hs. split.
  - intros k Hk. rewrite Hk in Hs. destruct k as [|n]; [contradiction|eauto].
  - intros r Hr. rewrite Hr in Hs. exact Hs.
Qed.

Lemma Execute_never_fails_on_its_own_witness :
  (forall k, pc (mkCall (EFn (conn 1)) None 1 1) = EFn k -> exists n, k = conn n) /\
  (forall r, pc (mkCall (EFn (conn 1)) None 1 1) = EReturned r ->
     exists x, r = Ret x).
Proof.
  apply (Execute_never_fails_on_its_own false 2 execute_and_get
           execute_and_get_end 1 (mkCall (EFn (conn 1)) None 1 1));
    vm_compute; reflexivity.
Defined.

(** ** The further properties on the examples *)



(** On [pool1] a call of Submit that passed the test before Shutdown
    cancelled the context queues its future afterwards. *)
Lemma shutdown_admits_only_calls_in_flight_witness :
  (taskQueue (ps_pool submit_in_flight_end) = [] /\
   taskQueue (ps_pool late_send_end) = [0]) /\
  IsShutdown (ps_pool late_send_end) = true /\
  wp_ctx (ps_pool late_send_end) = wp_ctx (ps_pool submit_in_flight_end) /\
  (forall k c p, submits late_send_end !! k = Some (SubSelect c p) ->
                 submits submit_in_flight_end !! k = Some (SubSelect c p)) /\
  (forall p, p ∈ taskQueue (ps_pool late_send_end) ->
             p ∈ taskQueue (ps_pool submit_in_flight_end) \/
             exists k c, submits submit_in_flight_end !! k = Some (SubSelect c p)) /\
  length (taskQueue (ps_pool late_send_end))
  + sum_list_with at_select (submits late_send_end)
  <= length (taskQueue (ps_pool submit_in_flight_end))
     + sum_list_with at_select (submits submit_in_flight_end) /\
  (forall k c task, submits late_send_end !! k = Some (SubCheck c task) ->
     exists s2 p,
       Submit_stmt k late_send_end = Some s2 /\
       submits s2 !! k = Some (SubReturned p) /\
       ps_heap s2 !! p
       = Some (NewFuture c (fun _ => Ret (zero, Some ErrWorkerPoolShutdown))) /\
       ps_pool s2 = ps_pool late_send_end) /\
  (forall k, shutdowns late_send_end !! k = Some ShCheck ->
     Shutdown_stmt k late_send_end = Some (goto_sh k ShReturned late_send_end)).
Proof.
  split; [split; reflexivity|].
  apply (shutdown_admits_only_calls_in_flight late_send submit_in_flight_end
           late_send_end); reflexivity.
Defined.


Lemma handlerRequest_responds_witness :
  handler_response (fst (handlerRequest Background query_ok pool1_waiting))
                   (snd (handlerRequest Background query_ok pool1_waiting)) = None /\
  exists s2,
    worker_step true 0 (snd (handlerRequest Background query_ok pool1_waiting))
    = Some s2 /\
    handler_response (fst (handlerRequest Background query_ok pool1_waiting)) s2
    = Some (match query_ok None with
            | Ret None => StatusOK "pong"
            | _ => StatusInternalServerError
            end) /\
    crashed s2 = crashed pool1_waiting.
Proof.
  apply (handlerRequest_responds query_ok true 0 pool1_waiting).
  - reflexivity.
  - reflexivity.
  - simpl. lia.
  - reflexivity.
Defined.

Lemma slots_released_exactly_once_witness :
  sema (cp two_calls_finished) = sum_list_with holds_slot (calls two_calls_finished) /\
  wg (cp two_calls_finished) = sum_list_with in_wg (calls two_calls_finished) /\
  wg (cp two_calls_finished) <= sema (cp two_calls_finished)
  <= length (calls two_calls_finished) /\
  (forallb returned (calls two_calls_finished) = true ->
   sema (cp two_calls_finished) = 0 /\ wg (cp two_calls_finished) = 0).
Proof.
  apply (slots_released_exactly_once false 2 (two_calls ++ [CExec quiet 1])
           two_calls_finished).
  vm_compute. reflexivity.
Defined.


Lemma connection_in_exactly_one_place_witness :
  (0 < next_conn two_calls_end -> places 0 two_calls_end = 1) /\
  (next_conn two_calls_end <= 0 -> places 0 two_calls_end = 0) /\
  places 0 two_calls_end
  = sum_list_with (holds_id 0) (calls two_calls_end)
    + sum_list_with (is_conn 0) (idleCons (cp two_calls_end))
    + sum_list_with (is_conn 0) (closedConns two_calls_end).
Proof.
  apply (connection_in_exactly_one_place false 2 two_calls two_calls_end 0);
    vm_compute; reflexivity.
Defined.

Lemma Shutdown_drains_idle_witness :
  match wg (cp two_idle) with
  | 0 =>
      exists s', Shutdown_run (5 + length (idleCons (cp two_idle))) two_idle = Some s' /\
        cp s' = set_idle [] (set_closed (set_done (cp two_idle))) /\
        closedConns s' = closedConns two_idle ++ idleCons (cp two_idle) /\
        calls s' = calls two_idle /\ next_conn s' = next_conn two_idle /\
        Shutdown_run 1 s' = Some s'
  | S _ => forall fuel, Shutdown_run fuel two_idle = None
  end.
Proof.
  apply (Shutdown_drains_idle two_idle); reflexivity.
Defined.

Lemma Execute_runs_fn_at_most_once_witness :
  invoked (mkCall (EReturned (Ret None)) None 1 1) <= 1 /\
  created (mkCall (EReturned (Ret None)) None 1 1)
  <= invoked (mkCall (EReturned (Ret None)) None 1 1) /\
  (forall r, pc (mkCall (EReturned (Ret None)) None 1 1) = EReturned r ->
     (invoked (mkCall (EReturned (Ret None)) None 1 1) = 0 ->
      exists e, r = Ret (Some e)) /\
     (r = Ret None -> invoked (mkCall (EReturned (Ret None)) None 1 1) = 1)).
Proof.
  apply (Execute_runs_fn_at_most_once false 2 (two_calls ++ [CExec quiet 1])
           two_calls_finished 0 (mkCall (EReturned (Ret None)) None 1 1));
    vm_compute; reflexivity.
Defined.

Lemma cancelled_pool_is_never_drained_witness :
  sd after_cancel_end = SIdle /\
  idle_closed (cp after_cancel_end) = idle_closed (cp two_idle_cancelled) /\
  idleCons (cp after_cancel_end) = idleCons (cp two_idle_cancelled) /\
  closedConns after_cancel_end = closedConns two_idle_cancelled /\
  next_conn after_cancel_end = next_conn two_idle_cancelled /\
  Shutdown_run 1 after_cancel_end = Some after_cancel_end.
Proof.
  apply (cancelled_pool_is_never_drained after_cancel two_idle_cancelled
           after_cancel_end);
    vm_compute; reflexivity.
Defined.
